(** * DiceVisualize: the dice-expression parser, the two distribution
    engines and the summary statistics of [src/app/page.tsx], embedded in Rocq.

    Two versions of the page are embedded:
    - [Page]: [dice/src/app/page.tsx], whose parser returns a flat list of
      rolls joined by [+];
    - [Part000]: the second copy of the page, whose parser strips whitespace,
      rewrites parentheses and returns a single node.

    Conventions.
    - A JavaScript [number] that the program manipulates is an integer or
      [NaN]: it is the result of [parseInt], a loop index, or a sum of such.
      Integers are kept exact ([Z]), which is what the program computes as
      long as the values stay below [2^53]; a property that needs this
      carries the bound as a hypothesis on its input.
    - The product [Math.random() * sides] and the quotients of the chart are
      not integers: they are rounded to the nearest double ([to_double]).
    - A JavaScript string is a Rocq [string]; a character is a code unit
      below 256, so the white space class is TAB, LF, VT, FF, CR, SP, NBSP.
    - [throw new Error(msg)] is the [Throw msg] result.
    - [Math.random()] reads the next element of a random source
      [nat -> Q], cut to a double; the position in the source is threaded
      as state. *)

From Stdlib Require Import ZArith List String Ascii Bool Lia QArith Qround.
From Stdlib Require Import Permutation Qpower Lqa.
Import ListNotations.

Local Open Scope string_scope.
Local Open Scope list_scope.
Local Open Scope Z_scope.

(** ** JavaScript values *)

Inductive number : Type :=
| Num (z : Z)
| NaN.

Definition number_eq_dec (a b : number) : {a = b} + {a <> b}.
Proof. decide equality. apply Z.eq_dec. Defined.

(** [a + b] on numbers: [NaN] is absorbing. *)
Definition add (a b : number) : number :=
  match a, b with
  | Num x, Num y => Num (x + y)
  | _, _ => NaN
  end.

(** [a < b] on numbers: every comparison with [NaN] is false. *)
Definition lt (a b : number) : bool :=
  match a, b with
  | Num x, Num y => x <? y
  | _, _ => false
  end.

(** [Math.min(a, b)] and [Math.max(a, b)]: [NaN] if either is [NaN]. *)
Definition Math_min2 (a b : number) : number :=
  match a, b with
  | Num x, Num y => Num (Z.min x y)
  | _, _ => NaN
  end.

Definition Math_max2 (a b : number) : number :=
  match a, b with
  | Num x, Num y => Num (Z.max x y)
  | _, _ => NaN
  end.

(** The result of a real division [a / b] with an integer, non-zero [b]. *)
Inductive real : Type :=
| Real (q : Q)
| RNaN.

(** [a - b] on numbers. *)
Definition sub (a b : number) : number :=
  match a, b with
  | Num x, Num y => Num (x - y)
  | _, _ => NaN
  end.

(** [a === b] on numbers: [NaN] equals nothing. *)
Definition strict_eq (a b : number) : bool :=
  match a, b with
  | Num x, Num y => x =? y
  | _, _ => false
  end.

(** *** Doubles

    A Number is a binary64 value: [m * 2^e] with [|m| < 2^53] and
    [e >= -1074]. [to_double] rounds a real to the nearest one, ties to the
    even mantissa, as every arithmetic operation of the language does with
    its exact result; [truncate_double] cuts towards zero. The exponent has
    no upper bound here: no value of the model overflows to an infinity. *)

Definition pow2 (e : Z) : Q := Qpower 2 e.

(** [floor (log2 x)] for [x > 0]: [2^binade x <= x < 2^(binade x + 1)]. *)
Definition binade (x : Q) : Z :=
  let k := Z.log2 (Qnum x) - Z.log2 (Zpos (Qden x)) in
  if Qle_bool (pow2 k) x then k else k - 1.

(** The spacing of the doubles around [x > 0]: 53 bits of mantissa, and the
    spacing [2^-1074] of the subnormal numbers at the bottom. *)
Definition ulp (x : Q) : Q := pow2 (Z.max (binade x - 52) (-1074)).

(** The integer nearest to [q], the even one of the two at a tie. *)
Definition nearest_even (q : Q) : Z :=
  let f := Qfloor q in
  match (q - inject_Z f ?= 1 # 2)%Q with
  | Lt => f
  | Gt => f + 1
  | Eq => if Z.even f then f else f + 1
  end.

(** [x] on the grid of the doubles around it, the mantissa chosen by [pick]. *)
Definition round_with (pick : Q -> Z) (x : Q) : Q :=
  let x := Qred x in
  match (x ?= 0)%Q with
  | Eq => 0%Q
  | Gt => (inject_Z (pick (x / ulp x)) * ulp x)%Q
  | Lt => (- (inject_Z (pick (- x / ulp (- x))) * ulp (- x)))%Q
  end.

Definition to_double (x : Q) : Q := round_with nearest_even x.
Definition truncate_double (x : Q) : Q := round_with Qfloor x.

(** [a / len] for a sum [a] and a length [len > 0]: the double nearest to
    the quotient. *)
Definition div_length (a : number) (len : nat) : real :=
  match a with
  | Num x => Real (Qred (to_double (inject_Z x / inject_Z (Z.of_nat len))))
  | NaN => RNaN
  end.

(** The result of [a / b] for integers: the double nearest to the quotient;
    an infinity when only [b] is zero, its sign being that of the zero, which
    the model does not keep; [NaN] for [0 / 0] and for a [NaN] operand. *)
Inductive quotient : Type :=
| Quotient (q : Q)
| Infinite
| QuotientNaN.

Definition divide (a : Z) (b : number) : quotient :=
  match b with
  | NaN => QuotientNaN
  | Num z =>
      if z =? 0 then
        if a =? 0 then QuotientNaN else Infinite
      else Quotient (Qred (to_double (inject_Z a / inject_Z z)))
  end.

(** Results of a call that may throw. *)
Inductive result (A : Type) : Type :=
| Ok (a : A)
| Throw (msg : string).
Arguments Ok {A} a.
Arguments Throw {A} msg.

Definition bind {A B} (r : result A) (k : A -> result B) : result B :=
  match r with
  | Ok a => k a
  | Throw msg => Throw msg
  end.

Notation "x <- r ;; k" := (bind r (fun x => k))
  (at level 61, r at next level, right associativity).

(** ** Counted loops

    [for (let i = 0; i < n; i++) body] runs [body] with [i = 0, 1, ...]
    while [i < n]; [for_fuel] is that loop, literally, with a bound on the
    number of iterations, and [for_lt] gives it the fuel it needs. *)

Definition trip_count (n : number) : nat :=
  match n with
  | Num z => Z.to_nat z
  | NaN => O
  end.

Fixpoint for_fuel {S : Type} (fuel : nat) (i : Z) (n : number)
    (body : Z -> S -> S) (s : S) : option S :=
  if lt (Num i) n then
    match fuel with
    | O => None
    | Datatypes.S fuel' => for_fuel fuel' (i + 1) n body (body i s)
    end
  else Some s.

Fixpoint for_upto {S : Type} (k : nat) (i : Z) (body : Z -> S -> S) (s : S) : S :=
  match k with
  | O => s
  | Datatypes.S k' => for_upto k' (i + 1) body (body i s)
  end.

Definition for_lt {S : Type} (n : number) (body : Z -> S -> S) (s : S) : S :=
  for_upto (trip_count n) 0 body s.

(** [Array.from({length: len}, (_, i) => f(i))]: a length that is [NaN] or
    negative counts as 0, and a length of [2^32] or more throws a
    [RangeError]. *)
Definition invalid_array_length : string := "Invalid array length".

Definition Array_from {A : Type} (len : number) (f : Z -> A) : result (list A) :=
  match len with
  | Num z =>
      if 2 ^ 32 <=? z then Throw invalid_array_length
      else Ok (map (fun i => f (Z.of_nat i)) (seq 0 (Z.to_nat z)))
  | NaN => Ok []
  end.

(** ** Strings *)

Definition code (c : ascii) : N := N_of_ascii c.

(** The class [\s], and the white space [parseInt] skips. *)
Definition is_space (c : ascii) : bool :=
  let n := code c in
  ((9 <=? n) && (n <=? 13) || (n =? 32) || (n =? 160))%N.

(** The class [\d]. *)
Definition is_digit (c : ascii) : bool :=
  let n := code c in ((48 <=? n) && (n <=? 57))%N.

(** Line terminators, which [.] does not match. *)
Definition is_line_terminator (c : ascii) : bool :=
  let n := code c in ((n =? 10) || (n =? 13))%N.

Fixpoint forallb_string (p : ascii -> bool) (s : string) : bool :=
  match s with
  | EmptyString => true
  | String c r => p c && forallb_string p r
  end.

Fixpoint filter_string (p : ascii -> bool) (s : string) : string :=
  match s with
  | EmptyString => EmptyString
  | String c r => if p c then String c (filter_string p r) else filter_string p r
  end.

(** [s.includes(c)] for a one-character needle. *)
Fixpoint includes (c : ascii) (s : string) : bool :=
  match s with
  | EmptyString => false
  | String x r => Ascii.eqb x c || includes c r
  end.

(** [s.split(c)] for a one-character separator: never the empty list. *)
Fixpoint split (c : ascii) (s : string) : list string :=
  match s with
  | EmptyString => [EmptyString]
  | String x r =>
      if Ascii.eqb x c then EmptyString :: split c r
      else match split c r with
           | [] => [String x EmptyString]
           | w :: ws => String x w :: ws
           end
  end.

(** The longest prefix of [s] in the class [p], and what follows it. *)
Fixpoint span (p : ascii -> bool) (s : string) : string * string :=
  match s with
  | EmptyString => (EmptyString, EmptyString)
  | String c r =>
      if p c then let (a, b) := span p r in (String c a, b)
      else (EmptyString, s)
  end.

(** [s.replace(/c/g, by)] for a one-character pattern. *)
Fixpoint replace_char (c : ascii) (by_ : string) (s : string) : string :=
  match s with
  | EmptyString => EmptyString
  | String x r =>
      if Ascii.eqb x c then (by_ ++ replace_char c by_ r)%string
      else String x (replace_char c by_ r)
  end.

(** No run of decimal digits of [s] is longer than [limit]; [run] digits
    come just before [s]. A run of at most 15 digits denotes a number below
    [10^15], which a double holds exactly. *)
Fixpoint digit_runs_within (limit run : nat) (s : string) : bool :=
  match s with
  | EmptyString => true
  | String c r =>
      if is_digit c
      then (Datatypes.S run <=? limit)%nat
           && digit_runs_within limit (Datatypes.S run) r
      else digit_runs_within limit O r
  end.

(** *** [parseInt(s)], with no radix argument *)

(** The value of a digit of the radix, if [c] is one. *)
Definition digit_value (radix : Z) (c : ascii) : option Z :=
  let n := Z.of_N (code c) in
  let v :=
    if (48 <=? n) && (n <=? 57) then Some (n - 48)
    else if (97 <=? n) && (n <=? 122) then Some (n - 87)
    else if (65 <=? n) && (n <=? 90) then Some (n - 55)
    else None in
  match v with
  | Some d => if d <? radix then Some d else None
  | None => None
  end.

(** Reads the longest prefix of digits; [acc] is [None] until a digit is seen. *)
Fixpoint read_digits (radix : Z) (s : string) (acc : option Z) : option Z :=
  match s with
  | EmptyString => acc
  | String c r =>
      match digit_value radix c with
      | Some d =>
          read_digits radix r
            (Some (match acc with Some a => a * radix + d | None => d end))
      | None => acc
      end
  end.

Fixpoint trim_start (s : string) : string :=
  match s with
  | EmptyString => EmptyString
  | String c r => if is_space c then trim_start r else s
  end.

(** An optional sign, then an optional [0x] or [0X], then the digits. *)
Definition strip_sign (s : string) : Z * string :=
  match s with
  | String c r =>
      if Ascii.eqb c "-" then (-1, r)
      else if Ascii.eqb c "+" then (1, r)
      else (1, s)
  | EmptyString => (1, s)
  end.

Definition strip_radix (s : string) : Z * string :=
  match s with
  | String c0 (String c1 r) =>
      if Ascii.eqb c0 "0" && (Ascii.eqb c1 "x" || Ascii.eqb c1 "X")
      then (16, r)
      else (10, s)
  | _ => (10, s)
  end.

(** The integer is returned exactly. The language rounds it to a double,
    which changes nothing up to [2^53], in particular for a number of at
    most 15 digits, and gives an infinity from about 309 digits on. *)
Definition parseInt (s : string) : number :=
  let (sign, s2) := strip_sign (trim_start s) in
  let (radix, s3) := strip_radix s2 in
  match read_digits radix s3 None with
  | Some v => Num (sign * v)
  | None => NaN
  end.

(** ** [dice/src/app/page.tsx] *)

Module Page.

Record DiceRoll : Type := mkDiceRoll {
  trial : number;
  sides : number
}.

(** [expr.match(/^(\d+)d(\d+)$/)]: the two groups, when the match succeeds.
    A digit is not a [d], so the first group is the longest digit prefix. *)
Definition match_roll (expr : string) : option (string * string) :=
  let (g1, rest) := span is_digit expr in
  match g1, rest with
  | String _ _, String "d" g2 =>
      match g2 with
      | String _ _ => if forallb_string is_digit g2 then Some (g1, g2) else None
      | EmptyString => None
      end
  | _, _ => None
  end.

Definition invalid_base : string :=
  "Invalid base dice expression. Use format like '1d6' or constant '1'".

Definition parseNode (expr : string) : result DiceRoll :=
  if includes "d" expr then
    match match_roll expr with
    | None => Throw invalid_base
    | Some (g1, g2) => Ok {| trial := parseInt g1; sides := parseInt g2 |}
    end
  else Ok {| trial := parseInt expr; sides := Num 1 |}.

(** The loop [for (const component of components) diceRolls.push(...)]. *)
Fixpoint push_nodes (components : list string) (diceRolls : list DiceRoll)
    : result (list DiceRoll) :=
  match components with
  | [] => Ok diceRolls
  | component :: rest =>
      node <- parseNode component ;;
      push_nodes rest (diceRolls ++ [node])
  end.

Definition parseDiceExpression (expression : string) : result (list DiceRoll) :=
  let components := split "+" expression in
  push_nodes components [].

(** *** The exact distribution *)

(** The array [aug] after [for (j = 0; j < sides; j++) aug.push(j + 1)]. *)
Definition faces (sides : number) : list number :=
  for_lt sides (fun j aug => aug ++ [Num (j + 1)]) [].

(** [results.flatMap(x => aug.map(y => x + y))]. *)
Definition combine (results aug : list number) : list number :=
  flat_map (fun x => map (fun y => add x y) aug) results.

Definition exact_roll (roll : DiceRoll) (results : list number) : list number :=
  for_lt (trial roll) (fun _ results => combine results (faces (sides roll))) results.

Definition getExactDistribution (diceRolls : list DiceRoll) : list number :=
  fold_left (fun results roll => exact_roll roll results) diceRolls [Num 0].

(** *** The Monte Carlo distribution *)

Section MonteCarlo.

(** [random k] is what the [k]-th call of [Math.random()] returns. *)
Variable random : nat -> Q.

(** The state of a simulation: the running sum and the number of calls of
    [Math.random()] made so far. *)
Definition sim : Type := (number * nat)%type.

(** [Math.random()] returns a Number of [0, 1): whatever real of [0, 1)
    the source draws, the program sees it cut to a double. Every double of
    [0, 1) is its own cut, so the sources range over all the values the
    call can return. *)
Definition Math_random (k : nat) : Q := truncate_double (random k).

(** [Math.floor(Math.random() * sides) + 1]: the product is rounded to a
    double before it is floored. *)
Definition face (sides : number) (k : nat) : number :=
  match sides with
  | Num s => Num (Qfloor (to_double (Math_random k * inject_Z s)) + 1)
  | NaN => NaN
  end.

Definition throw_die (roll : DiceRoll) (st : sim) : sim :=
  let (current, k) := st in
  (add current (face (sides roll) k), Datatypes.S k).

Definition simulate_roll (roll : DiceRoll) (st : sim) : sim :=
  for_lt (trial roll) (fun _ st => throw_die roll st) st.

(** One pass of the outer loop body: [current] starts at 0. *)
Definition simulate (diceRolls : list DiceRoll) (k : nat) : sim :=
  fold_left (fun st roll => simulate_roll roll st) diceRolls (Num 0, k).

Definition getMonteCarloDistribution_from (diceRolls : list DiceRoll)
    (numSimulations : number) (k : nat) : list number * nat :=
  for_lt numSimulations
    (fun _ '(results, k) =>
       let (current, k') := simulate diceRolls k in
       (results ++ [current], k'))
    ([], k).

Definition getMonteCarloDistribution (diceRolls : list DiceRoll)
    (numSimulations : number) : list number :=
  fst (getMonteCarloDistribution_from diceRolls numSimulations O).

End MonteCarlo.

(** *** The statistics of [Home] *)

(** [Math.min(...d)] and [Math.max(...d)] for a non-empty [d] that the
    engine accepts as the arguments of one call (see [stats_spread]). *)
Definition Math_min (x : number) (xs : list number) : number :=
  fold_left Math_min2 xs x.

Definition Math_max (x : number) (xs : list number) : number :=
  fold_left Math_max2 xs x.

(** [d.reduce((a, b) => a + b, 0)]: exact as long as the running sum stays
    below [2^53]. *)
Definition sum (d : list number) : number :=
  fold_left add d (Num 0).

Record Stats : Type := mkStats {
  min : number;
  max : number;
  mean : real;
  expected : real
}.

(** [distribution.length ? ... : 0], field by field. *)
Definition stats (distribution : list number) : Stats :=
  match distribution with
  | [] => {| min := Num 0; max := Num 0; mean := Real 0; expected := Real 0 |}
  | x :: xs =>
      {| min := Math_min x xs;
         max := Math_max x xs;
         mean := div_length (sum distribution) (List.length distribution);
         expected := div_length (sum distribution) (List.length distribution) |}
  end.

(** [Math.min(...distribution)] passes every entry as an argument of one
    call; an engine accepts [max_arguments] of them and throws a
    [RangeError] beyond. *)
Definition too_many_arguments : string := "Maximum call stack size exceeded".

Definition stats_spread (max_arguments : nat) (distribution : list number)
    : result Stats :=
  if (max_arguments <? List.length distribution)%nat
  then Throw too_many_arguments
  else Ok (stats distribution).

(** *** The chart of [Home] *)

Record ChartData : Type := mkChartData {
  labels : list number;
  data : list quotient
}.

(** [distribution.filter(x => x === i + stats.min).length]. *)
Definition bar_count (distribution : list number) (i : Z) : nat :=
  List.length
    (filter (fun x => strict_eq x (add (Num i) (min (stats distribution))))
       distribution).

(** The [length] both [Array.from] calls are given: [max - min + 1]. *)
Definition bars (distribution : list number) : number :=
  add (sub (max (stats distribution)) (min (stats distribution))) (Num 1).

Definition chartData (max_arguments : nat) (useMonteCarlo : bool)
    (numSimulations : number) (distribution : list number) : result ChartData :=
  _ <- stats_spread max_arguments distribution ;;
  labels <- Array_from (bars distribution)
              (fun i => add (Num i) (min (stats distribution))) ;;
  data <- (if useMonteCarlo then
             Array_from (bars distribution)
               (fun i => divide (Z.of_nat (bar_count distribution i)) numSimulations)
           else
             Array_from (bars distribution)
               (fun i => divide (Z.of_nat (bar_count distribution i))
                           (Num (Z.of_nat (List.length distribution))))) ;;
  Ok {| labels := labels; data := data |}.

(** *** The state of [Home] and its handlers *)

Inductive Operation : Type := OpSum | OpMin | OpMax.

Record Home : Type := mkHome {
  expression : string;
  numSimulations : number;
  operation : Operation;
  distribution : list number;
  error : string;
  useMonteCarlo : bool;
  shouldCompute : bool
}.

(** [useState] initial values. *)
Definition initial : Home :=
  {| expression := "1d6";
     numSimulations := Num 1000;
     operation := OpSum;
     distribution := [];
     error := "";
     useMonteCarlo := true;
     shouldCompute := false |}.

(** [computeDistribution]: the state after the [try] block or after the
    [catch]; [k] counts the calls of [Math.random()] made so far. *)
Definition computeDistribution (random : nat -> Q) (k : nat) (st : Home)
    : Home * nat :=
  match parseDiceExpression (expression st) with
  | Ok diceRolls =>
      let (results, k') :=
        if useMonteCarlo st
        then getMonteCarloDistribution_from random diceRolls (numSimulations st) k
        else (getExactDistribution diceRolls, k) in
      ({| expression := expression st;
          numSimulations := numSimulations st;
          operation := operation st;
          distribution := results;
          error := "";
          useMonteCarlo := useMonteCarlo st;
          shouldCompute := shouldCompute st |}, k')
  | Throw msg =>
      ({| expression := expression st;
          numSimulations := numSimulations st;
          operation := operation st;
          distribution := distribution st;
          error := msg;
          useMonteCarlo := useMonteCarlo st;
          shouldCompute := shouldCompute st |}, k)
  end.

(** The body of [useEffect]. *)
Definition effect (random : nat -> Q) (k : nat) (st : Home) : Home * nat :=
  if useMonteCarlo st || shouldCompute st then
    let (st', k') := computeDistribution random k st in
    ({| expression := expression st';
        numSimulations := numSimulations st';
        operation := operation st';
        distribution := distribution st';
        error := error st';
        useMonteCarlo := useMonteCarlo st';
        shouldCompute := false |}, k')
  else (st, k).

(** What the controls of the page do to the state: the [onChange] and
    [onClick] handlers. *)
Inductive Action : Type :=
| SetExpression (value : string)
| SetOperation (value : Operation)
| SetUseMonteCarlo (checked : bool)
| SetNumSimulations (value : string)
| PressCompute.

Definition update (a : Action) (st : Home) : Home :=
  match a with
  | SetExpression value =>
      {| expression := value;
         numSimulations := numSimulations st;
         operation := operation st;
         distribution := distribution st;
         error := error st;
         useMonteCarlo := useMonteCarlo st;
         shouldCompute := shouldCompute st |}
  | SetOperation value =>
      {| expression := expression st;
         numSimulations := numSimulations st;
         operation := value;
         distribution := distribution st;
         error := error st;
         useMonteCarlo := useMonteCarlo st;
         shouldCompute := shouldCompute st |}
  | SetUseMonteCarlo checked =>
      {| expression := expression st;
         numSimulations := numSimulations st;
         operation := operation st;
         distribution := distribution st;
         error := error st;
         useMonteCarlo := checked;
         shouldCompute := shouldCompute st |}
  | SetNumSimulations value =>
      {| expression := expression st;
         numSimulations := parseInt value;
         operation := operation st;
         distribution := distribution st;
         error := error st;
         useMonteCarlo := useMonteCarlo st;
         shouldCompute := shouldCompute st |}
  | PressCompute =>
      {| expression := expression st;
         numSimulations := numSimulations st;
         operation := operation st;
         distribution := distribution st;
         error := error st;
         useMonteCarlo := useMonteCarlo st;
         shouldCompute := true |}
  end.

(** The expressions whose numbers are written with at most 15 digits. *)
Definition short_numbers (a : Action) : bool :=
  match a with
  | SetExpression value => digit_runs_within 15 0 value
  | _ => true
  end.

(** The states the page can be in when the numbers typed into the
    expression have at most 15 digits: it starts in [initial], a control
    changes the state, and the effect runs, in any order and any number of
    times, with the random source at any position. *)
Inductive reachable (random : nat -> Q) : Home -> Prop :=
| reach_initial : reachable random initial
| reach_update (a : Action) (st : Home) :
    short_numbers a = true ->
    reachable random st -> reachable random (update a st)
| reach_effect (k : nat) (st : Home) :
    reachable random st -> reachable random (fst (effect random k st)).

End Page.

(** ** The second copy of the page ([unnamed/part_000]) *)

Module Part000.

(** [sides: number|DiceRoll[]], and the unchecked cast of [modifier]: at run
    time the field holds whatever string the third group matched. *)
#[warnings="-register-all"]
Inductive DiceRoll : Type :=
  mkDiceRoll {
    multiplier : number;
    sides : number + list DiceRoll;
    modifier : string
  }.

(** The match of [expr] against the pattern of [parseNode]: digits, then [d]
    and digits, then any run of characters other than line terminators, up to
    the end. The three groups, when the match succeeds. The quantifiers are
    greedy and a digit is not a [d], so both digit groups are maximal. *)
Definition match_node (expr : string) : option (string * string * string) :=
  let (g1, rest) := span is_digit expr in
  match g1, rest with
  | String _ _, String "d" rest2 =>
      let (digits2, g3) := span is_digit rest2 in
      match digits2 with
      | String _ _ =>
          if forallb_string (fun c => negb (is_line_terminator c)) g3
          then Some (g1, String "d" digits2, g3)
          else None
      | EmptyString => None
      end
  | _, _ => None
  end.

Definition invalid_expression : string :=
  "Invalid dice expression. Use format like '1d6' or '2d10+1d4'".

Definition parseNode (expr : string) : result DiceRoll :=
  match match_node expr with
  | None => Throw invalid_expression
  | Some (g1, g2, g3) =>
      Ok {| multiplier := parseInt g1;
            sides := inl (parseInt g2);
            modifier := match g3 with EmptyString => "+" | _ => g3 end |}
  end.

(** [expression.replace(/\s+/g, '')]. *)
Definition remove_whitespace (expression : string) : string :=
  filter_string (fun c => negb (is_space c)) expression.

(** The three rewritings that precede [parseNode]. *)
Definition rewrite (expression : string) : string :=
  let expression := remove_whitespace expression in
  let expression := replace_char "(" "1d(" expression in
  replace_char ")" ")" expression.

Definition parseDiceExpression (expression : string) : result DiceRoll :=
  parseNode (rewrite expression).

End Part000.

(** ** Specification vocabulary *)

(** A leaf is well formed when both fields are integers and at least 1. *)
Definition well_formed_roll (roll : Page.DiceRoll) : bool :=
  match Page.trial roll, Page.sides roll with
  | Num t, Num s => (1 <=? t) && (1 <=? s)
  | _, _ => false
  end.

Definition well_formed (diceRolls : list Page.DiceRoll) : bool :=
  forallb well_formed_roll diceRolls.

(** The integer a field holds ([0] stands for a [NaN] field). *)
Definition value (n : number) : Z :=
  match n with
  | Num z => z
  | NaN => 0
  end.

(** The product over the leaves of [sides ^ trial]. *)
Definition outcome_count (diceRolls : list Page.DiceRoll) : Z :=
  fold_right (fun roll acc => value (Page.sides roll) ^ value (Page.trial roll) * acc)
    1 diceRolls.

(** Every die shows 1; every die shows its highest face. *)
Definition lowest_total (diceRolls : list Page.DiceRoll) : Z :=
  fold_right (fun roll acc => value (Page.trial roll) + acc) 0 diceRolls.

Definition highest_total (diceRolls : list Page.DiceRoll) : Z :=
  fold_right (fun roll acc => value (Page.trial roll) * value (Page.sides roll) + acc)
    0 diceRolls.

(** A random source over [0, 1). *)
Definition uniform_source (random : nat -> Q) : Prop :=
  forall k, (0 <= random k)%Q /\ (random k < 1)%Q.

(** The expressions the page documents: [XdY] or a constant, joined by [+]. *)
Definition digits (s : string) : Prop :=
  s <> EmptyString /\ forallb_string is_digit s = true.

Inductive dice_term : string -> Prop :=
| term_roll (x y : string) :
    digits x -> digits y -> dice_term (x ++ String "d" y)
| term_constant (x : string) :
    digits x -> dice_term x.

Inductive dice_expression : string -> Prop :=
| expression_term (t : string) :
    dice_term t -> dice_expression t
| expression_plus (t e : string) :
    dice_term t -> dice_expression e -> dice_expression (t ++ String "+" e).

(** Every entry of [l] is an integer between [lo] and [hi]. *)
Definition within (lo hi : Z) (l : list number) : Prop :=
  forall x, In x l -> exists v, x = Num v /\ lo <= v <= hi.

(** How often the value [v] occurs in an outcome sequence. *)
Definition occurrences (v : Z) (outcomes : list number) : nat :=
  count_occ number_eq_dec outcomes (Num v).

(** Every entry of [l] is an integer. *)
Definition integers (l : list number) : Prop :=
  forall x, In x l -> exists v, x = Num v.

(** The sum of the integers of [l]. *)
Definition total (l : list number) : Z :=
  fold_right (fun x acc => value x + acc) 0 l.

(** A component of the form [XdY]. *)
Definition roll_form (component : string) : Prop :=
  exists x y, digits x /\ digits y /\ component = (x ++ String "d" y)%string.

(** How many times the character [c] occurs in [s]. *)
Fixpoint count_char (c : ascii) (s : string) : nat :=
  match s with
  | EmptyString => O
  | String x r => if Ascii.eqb x c then Datatypes.S (count_char c r) else count_char c r
  end.

(** The number of dice a list of rolls throws in one simulation. *)
Definition dice_thrown (diceRolls : list Page.DiceRoll) : nat :=
  fold_right (fun roll acc => (trip_count (Page.trial roll) + acc)%nat) O diceRolls.

(** The numerators of the chart's data: how many outcomes each bar counts. *)
Definition bar_counts (distribution : list number) : list nat :=
  map (fun i => Page.bar_count distribution (Z.of_nat i))
    (seq 0 (trip_count (Page.bars distribution))).

(** The number a string of decimal digits denotes. *)
Fixpoint decimal_from (acc : Z) (s : string) : Z :=
  match s with
  | EmptyString => acc
  | String c r => decimal_from (acc * 10 + (Z.of_N (code c) - 48)) r
  end.

Definition decimal (s : string) : Z := decimal_from 0 s.

(** * Properties *)

(** ** Doubles *)

Lemma pow2_pos (e : Z) : (0 < pow2 e)%Q.
Proof. apply Qpower_0_lt. reflexivity. Qed.

Lemma pow2_plus (a b : Z) : (pow2 (a + b) == pow2 a * pow2 b)%Q.
Proof. apply Qpower_plus. discriminate. Qed.

Lemma pow2_le (a b : Z) : a <= b -> (pow2 a <= pow2 b)%Q.
Proof. intros H. apply Qpower_le_compat_l; [exact H | discriminate]. Qed.

Lemma pow2_nonneg (e : Z) : 0 <= e -> (pow2 e == inject_Z (2 ^ e))%Q.
Proof. intros H. symmetry. apply (Zpower_Qpower 2 e H). Qed.

Lemma pow2_quotient (a b : Z) :
  0 <= a -> 0 <= b -> (pow2 (a - b) == inject_Z (2 ^ a) / inject_Z (2 ^ b))%Q.
Proof.
  intros Ha Hb. unfold Z.sub. rewrite pow2_plus.
  unfold pow2 at 2. rewrite Qpower_opp. fold (pow2 b).
  rewrite !pow2_nonneg by assumption. reflexivity.
Qed.

Lemma cross_le (A B n d : Z) :
  0 < B -> 0 < d -> A * d <= n * B ->
  (inject_Z A / inject_Z B <= inject_Z n / inject_Z d)%Q.
Proof.
  intros HB Hd H.
  destruct B as [|B|B]; try lia. destruct d as [|d|d]; try lia.
  unfold Qle, Qdiv, Qmult, Qinv, inject_Z. simpl. lia.
Qed.

Lemma cross_lt (A B n d : Z) :
  0 < B -> 0 < d -> n * B < A * d ->
  (inject_Z n / inject_Z d < inject_Z A / inject_Z B)%Q.
Proof.
  intros HB Hd H.
  destruct B as [|B|B]; try lia. destruct d as [|d|d]; try lia.
  unfold Qlt, Qdiv, Qmult, Qinv, inject_Z. simpl. lia.
Qed.

Lemma binade_bounds (x : Q) :
  (0 < x)%Q -> (pow2 (binade x) <= x)%Q /\ (x < pow2 (binade x + 1))%Q.
Proof.
  intros Hx. destruct x as [n d].
  assert (Hn : 0 < n) by (unfold Qlt in Hx; simpl in Hx; lia).
  pose proof (Z.log2_spec n Hn) as [Hn1 Hn2].
  pose proof (Z.log2_spec (Z.pos d) (Pos2Z.is_pos d)) as [Hd1 Hd2].
  pose proof (Z.log2_nonneg n) as Ha.
  pose proof (Z.log2_nonneg (Z.pos d)) as Hb.
  unfold binade. cbn [Qnum Qden].
  set (a := Z.log2 n) in *. set (b := Z.log2 (Z.pos d)) in *.
  assert (Hpa : 0 < 2 ^ a) by (apply Z.pow_pos_nonneg; lia).
  assert (Hpb : 0 < 2 ^ b) by (apply Z.pow_pos_nonneg; lia).
  destruct (Qle_bool (pow2 (a - b)) (n # d)) eqn:Htest.
  - apply Qle_bool_iff in Htest. split; [exact Htest |].
    replace (a - b + 1) with (Z.succ a - b) by lia.
    rewrite pow2_quotient by lia. rewrite (Qmake_Qdiv n d).
    apply cross_lt; [lia | lia | nia].
  - split.
    + replace (a - b - 1) with (a - Z.succ b) by lia.
      rewrite pow2_quotient by lia. rewrite (Qmake_Qdiv n d).
      assert (0 < 2 ^ Z.succ b) by (apply Z.pow_pos_nonneg; lia).
      apply cross_le; [lia | lia | nia].
    + replace (a - b - 1 + 1) with (a - b) by lia.
      apply Qnot_le_lt. intros H. apply Qle_bool_iff in H. congruence.
Qed.

Lemma nearest_even_near (q : Q) :
  (inject_Z (nearest_even q) <= q + (1 # 2))%Q
  /\ ((0 <= q)%Q -> 0 <= nearest_even q).
Proof.
  unfold nearest_even.
  pose proof (Qfloor_le q) as Hf.
  assert (H0 : (0 <= q)%Q -> 0 <= Qfloor q).
  { intros H. change 0 with (Qfloor 0). apply Qfloor_resp_le. exact H. }
  destruct (Qcompare_spec (q - inject_Z (Qfloor q)) (1 # 2)) as [He | Hl | Hg].
  - destruct (Z.even (Qfloor q)); split; try (intros; specialize (H0 H); lia).
    + lra.
    + rewrite inject_Z_plus. change (inject_Z 1) with 1%Q. lra.
  - split; [lra | exact H0].
  - split; [| intros H; specialize (H0 H); lia].
    rewrite inject_Z_plus. change (inject_Z 1) with 1%Q. lra.
Qed.

Lemma ulp_pos (x : Q) : (0 < ulp x)%Q.
Proof. apply pow2_pos. Qed.

Lemma ulp_small (x : Q) :
  (0 < x)%Q -> (ulp x <= x * pow2 (-52))%Q \/ ulp x = pow2 (-1074).
Proof.
  intros Hx. unfold ulp.
  destruct (Z.max_spec (binade x - 52) (-1074)) as [[_ ->] | [_ ->]].
  - right; reflexivity.
  - left. unfold Z.sub. rewrite pow2_plus.
    apply Qmult_le_compat_r; [apply binade_bounds; exact Hx |].
    apply Qlt_le_weak, pow2_pos.
Qed.

Lemma scaled_back (x : Q) : (x / ulp x * ulp x == x)%Q.
Proof.
  rewrite Qmult_comm. apply Qmult_div_r. intros H. pose proof (ulp_pos x) as Hu. rewrite H in Hu.
  discriminate.
Qed.

(** A double below 1 times an integer, rounded, stays below the integer. *)
Lemma rounded_product_below (r : Q) (s : Z) :
  (0 <= r)%Q -> (r <= 1 - pow2 (-53))%Q -> 1 <= s ->
  (0 <= to_double (r * inject_Z s))%Q
  /\ (to_double (r * inject_Z s) < inject_Z s)%Q.
Proof.
  intros Hr0 Hr1 Hs.
  assert (Hs' : (1 <= inject_Z s)%Q).
  { change 1%Q with (inject_Z 1). rewrite <- Zle_Qle. exact Hs. }
  unfold to_double, round_with.
  pose proof (Qred_correct (r * inject_Z s)) as Hred.
  set (x := Qred (r * inject_Z s)) in *.
  assert (Hx0 : (0 <= x)%Q).
  { rewrite Hred. apply Qmult_le_0_compat; lra. }
  assert (Hx1 : (x <= inject_Z s * (1 - pow2 (-53)))%Q).
  { rewrite Hred, (Qmult_comm r). apply Qmult_le_l; [lra | exact Hr1]. }
  destruct (Qcompare_spec x 0) as [He | Hl | Hg].
  - lra.
  - lra.
  - pose proof (ulp_pos x) as Hu.
    destruct (nearest_even_near (x / ulp x)) as [Hnear Hpos].
    assert (Hq : (0 <= x / ulp x)%Q).
    { apply Qle_shift_div_l; [exact Hu | lra]. }
    specialize (Hpos Hq).
    assert (Hup : (inject_Z (nearest_even (x / ulp x)) * ulp x
                   <= x + (1 # 2) * ulp x)%Q).
    { apply Qle_trans with ((x / ulp x + (1 # 2)) * ulp x)%Q.
      - apply Qmult_le_compat_r; [exact Hnear | lra].
      - rewrite Qmult_plus_distr_l, scaled_back. apply Qle_refl. }
    split.
    + apply Qmult_le_0_compat; [| lra].
      change 0%Q with (inject_Z 0). rewrite <- Zle_Qle. exact Hpos.
    + assert (H53 : (pow2 (-53) == 1 # 9007199254740992)%Q) by reflexivity.
      assert (H52 : (pow2 (-52) == 1 # 4503599627370496)%Q) by reflexivity.
      rewrite H53 in Hx1.
      destruct (ulp_small x Hg) as [Hsmall | Htiny].
      * rewrite H52 in Hsmall. lra.
      * assert (Hu' : (ulp x <= 1 # 9007199254740992)%Q).
        { rewrite Htiny, <- H53. apply pow2_le. lia. }
        lra.
Qed.

(** Cutting a real of [0, 1) to a double gives a double of [0, 1), which is
    at most [1 - 2^-53]. *)
Lemma truncate_below_one (r : Q) :
  (0 <= r)%Q -> (r < 1)%Q ->
  (0 <= truncate_double r)%Q /\ (truncate_double r <= 1 - pow2 (-53))%Q.
Proof.
  intros Hr0 Hr1. unfold truncate_double, round_with.
  pose proof (Qred_correct r) as Hred.
  set (x := Qred r) in *.
  assert (H53 : (pow2 (-53) == 1 # 9007199254740992)%Q) by reflexivity.
  destruct (Qcompare_spec x 0) as [He | Hl | Hg].
  - rewrite H53. split; lra.
  - lra.
  - pose proof (ulp_pos x) as Hu.
    pose proof (Qfloor_le (x / ulp x)) as Hfloor.
    assert (Hq : (0 <= x / ulp x)%Q).
    { apply Qle_shift_div_l; [exact Hu | lra]. }
    assert (Hm0 : 0 <= Qfloor (x / ulp x)).
    { change 0 with (Qfloor 0). apply Qfloor_resp_le. exact Hq. }
    destruct (binade_bounds x Hg) as [Hlow Hhigh].
    assert (Hbin : binade x <= -1).
    { destruct (Z_le_gt_dec (binade x) (-1)) as [H | H]; [exact H |].
      exfalso. pose proof (pow2_le 0 (binade x) ltac:(lia)) as H1.
      change (pow2 0) with 1%Q in H1. lra. }
    set (E := Z.max (binade x - 52) (-1074)) in *.
    assert (HE : E <= -53 /\ binade x + 1 <= E + 53) by (subst E; lia).
    assert (Hulp : ulp x = pow2 E) by reflexivity.
    assert (Hx53 : (x < inject_Z (2 ^ 53) * ulp x)%Q).
    { apply Qlt_le_trans with (pow2 (binade x + 1)); [exact Hhigh |].
      apply Qle_trans with (pow2 (E + 53)); [apply pow2_le; lia |].
      rewrite Z.add_comm, pow2_plus, Hulp.
      apply Qmult_le_compat_r; [| apply Qlt_le_weak, pow2_pos].
      rewrite pow2_nonneg by lia. apply Qle_refl. }
    assert (Hm : Qfloor (x / ulp x) <= 2 ^ 53 - 1).
    { assert (Hlt : (inject_Z (Qfloor (x / ulp x)) < inject_Z (2 ^ 53))%Q).
      { apply Qle_lt_trans with (x / ulp x)%Q; [exact Hfloor |].
        apply Qlt_shift_div_r; [exact Hu | exact Hx53]. }
      rewrite <- Zlt_Qlt in Hlt. lia. }
    assert (Hu53 : (ulp x <= pow2 (-53))%Q).
    { rewrite Hulp. apply pow2_le. lia. }
    split.
    + apply Qmult_le_0_compat; [| lra].
      change 0%Q with (inject_Z 0). rewrite <- Zle_Qle. exact Hm0.
    + apply Qle_trans with (inject_Z (2 ^ 53 - 1) * ulp x)%Q.
      * apply Qmult_le_compat_r; [| lra]. rewrite <- Zle_Qle. exact Hm.
      * rewrite H53 in *.
        change (inject_Z (2 ^ 53 - 1)) with (9007199254740991 # 1). lra.
Qed.

Lemma binade_unique (x : Q) (k : Z) :
  (0 < x)%Q -> (pow2 k <= x)%Q -> (x < pow2 (k + 1))%Q -> binade x = k.
Proof.
  intros Hx Hlo Hhi. destruct (binade_bounds x Hx) as [Blo Bhi].
  destruct (Z.lt_trichotomy (binade x) k) as [H | [H | H]]; [| exact H |].
  - exfalso. pose proof (pow2_le (binade x + 1) k ltac:(lia)). lra.
  - exfalso. pose proof (pow2_le (k + 1) (binade x) ltac:(lia)). lra.
Qed.

Lemma nearest_even_integer (q : Q) (z : Z) :
  (q == inject_Z z)%Q -> nearest_even q = z.
Proof.
  intros H. unfold nearest_even.
  assert (Hf : Qfloor q = z) by (rewrite H; apply Qfloor_Z).
  rewrite Hf.
  destruct (Qcompare_spec (q - inject_Z z) (1 # 2)) as [He | Hl | Hg];
    [lra | reflexivity | lra].
Qed.

(** A double is kept as it is by both roundings: [m * 2^e] with a mantissa
    [m] of 53 bits, or of fewer bits at the lowest exponent. *)
Lemma double_kept (pick : Q -> Z) (m e : Z) :
  (forall (q : Q) (z : Z), (q == inject_Z z)%Q -> pick q = z) ->
  0 < m < 2 ^ 53 ->
  -1074 <= e ->
  2 ^ 52 <= m \/ e = -1074 ->
  (round_with pick (inject_Z m * pow2 e) == inject_Z m * pow2 e)%Q.
Proof.
  intros Hpick Hm He Hshape. unfold round_with.
  pose proof (Qred_correct (inject_Z m * pow2 e)) as Hred.
  set (x := Qred (inject_Z m * pow2 e)) in *.
  pose proof (pow2_pos e) as Hpe.
  assert (Hm0 : (0 < inject_Z m)%Q).
  { change 0%Q with (inject_Z 0). rewrite <- Zlt_Qlt. lia. }
  assert (Hx : (0 < x)%Q).
  { rewrite Hred. apply Qmult_lt_0_compat; assumption. }
  assert (Hhi : (x < pow2 (e + 53))%Q).
  { rewrite Hred, Z.add_comm, pow2_plus.
    apply Qmult_lt_compat_r; [exact Hpe |].
    rewrite pow2_nonneg by lia. rewrite <- Zlt_Qlt. lia. }
  assert (Hulp : ulp x = pow2 e).
  { unfold ulp. f_equal. destruct Hshape as [Hnormal | ->].
    - assert (Hlo : (pow2 (e + 52) <= x)%Q).
      { rewrite Hred, Z.add_comm, pow2_plus.
        apply Qmult_le_compat_r; [| lra].
        rewrite pow2_nonneg by lia. rewrite <- Zle_Qle. exact Hnormal. }
      rewrite (binade_unique x (e + 52) Hx Hlo);
        [lia | replace (e + 52 + 1) with (e + 53) by lia; exact Hhi].
    - destruct (binade_bounds x Hx) as [Blo _].
      assert (binade x < -1074 + 53).
      { destruct (Z_lt_ge_dec (binade x) (-1074 + 53)) as [H | H]; [exact H |].
        exfalso. pose proof (pow2_le (-1074 + 53) (binade x) ltac:(lia)). lra. }
      lia. }
  destruct (Qcompare_spec x 0) as [H0 | H0 | H0]; [lra | lra |].
  rewrite Hulp.
  assert (Hq : (x / pow2 e == inject_Z m)%Q).
  { rewrite Hred. apply Qdiv_mult_l. lra. }
  rewrite (Hpick _ _ Hq). reflexivity.
Qed.

Lemma to_double_kept (m e : Z) :
  0 < m < 2 ^ 53 -> -1074 <= e -> 2 ^ 52 <= m \/ e = -1074 ->
  (to_double (inject_Z m * pow2 e) == inject_Z m * pow2 e)%Q.
Proof. apply double_kept. exact nearest_even_integer. Qed.

Lemma truncate_double_kept (m e : Z) :
  0 < m < 2 ^ 53 -> -1074 <= e -> 2 ^ 52 <= m \/ e = -1074 ->
  (truncate_double (inject_Z m * pow2 e) == inject_Z m * pow2 e)%Q.
Proof.
  apply double_kept. intros q z H. rewrite H. apply Qfloor_Z.
Qed.

(** The double nearest to 0.7, times 10, rounds to 7: the face is 8. *)
Lemma face_rounds_product : Page.face (fun _ => 7 # 10) (Num 10) 0 = Num 8.
Proof. vm_compute. reflexivity. Qed.

Lemma to_double_ties_to_even :
  Qred (to_double (inject_Z (2 ^ 53 + 1))) = inject_Z (2 ^ 53)
  /\ Qred (to_double (inject_Z (2 ^ 53 + 3))) = inject_Z (2 ^ 53 + 4).
Proof. split; vm_compute; reflexivity. Qed.

Lemma to_double_ext (x y : Q) : (x == y)%Q -> to_double x = to_double y.
Proof.
  intros H. unfold to_double, round_with. rewrite (Qred_complete x y H).
  reflexivity.
Qed.

(** Half of a natural number below [2^53] is a double. *)
Lemma half_integer_kept (n : Z) :
  0 <= n < 2 ^ 53 -> (to_double (inject_Z n / 2) == inject_Z n / 2)%Q.
Proof.
  intros Hn. destruct (Z.eq_dec n 0) as [-> | Hn0]; [reflexivity |].
  assert (Hpos : 0 < n) by lia.
  destruct (Z.log2_spec n Hpos) as [Hlo Hhi].
  pose proof (Z.log2_nonneg n) as Hk0.
  assert (Hk : Z.log2 n < 53) by (apply Z.log2_lt_pow2; lia).
  set (k := Z.log2 n) in *.
  assert (Hp : 0 < 2 ^ (52 - k)) by (apply Z.pow_pos_nonneg; lia).
  assert (H52 : 2 ^ 52 = 2 ^ k * 2 ^ (52 - k)).
  { rewrite <- Z.pow_add_r by lia. f_equal. lia. }
  assert (H53 : 2 ^ 53 = 2 ^ Z.succ k * 2 ^ (52 - k)).
  { rewrite <- Z.pow_add_r by lia. f_equal. lia. }
  assert (Hsame : (inject_Z (n * 2 ^ (52 - k)) * pow2 (k - 53)
                   == inject_Z n / 2)%Q).
  { rewrite inject_Z_mult, <- pow2_nonneg by lia.
    rewrite <- Qmult_assoc, <- pow2_plus.
    replace (52 - k + (k - 53)) with (-1) by lia. apply Qeq_refl. }
  rewrite <- (to_double_ext _ _ Hsame), <- Hsame.
  apply to_double_kept; [nia | lia | left; nia].
Qed.


(** ** Counted loops *)

Lemma for_fuel_upto {S : Type} (body : Z -> S -> S) (z : Z) :
  forall (k : nat) (i : Z) (s : S),
    k = Z.to_nat (z - i) ->
    for_fuel k i (Num z) body s = Some (for_upto k i body s).
Proof.
  induction k as [|k IH]; intros i s Hk; simpl.
  - destruct (Z.ltb_spec i z); [lia | reflexivity].
  - destruct (Z.ltb_spec i z); [| lia].
    apply IH. lia.
Qed.

(** The loop [for (let i = 0; i < n; i++)] stops, after [trip_count n]
    iterations, in the state [for_lt] computes. *)
Lemma for_fuel_for_lt {S : Type} (n : number) (body : Z -> S -> S) (s : S) :
  for_fuel (trip_count n) 0 n body s = Some (for_lt n body s).
Proof.
  destruct n as [z|]; unfold for_lt; simpl trip_count.
  - apply for_fuel_upto. f_equal. lia.
  - reflexivity.
Qed.

Lemma for_upto_succ {S : Type} (f : S -> S) (k : nat) (i : Z) (s : S) :
  for_upto (Datatypes.S k) i (fun _ => f) s = f (for_upto k i (fun _ => f) s).
Proof.
  revert i s. induction k as [|k IH]; intros i s; [reflexivity |].
  change (for_upto (Datatypes.S (Datatypes.S k)) i (fun _ => f) s)
    with (for_upto (Datatypes.S k) (i + 1) (fun _ => f) (f s)).
  rewrite IH. reflexivity.
Qed.

(** ** The exact distribution *)

Lemma push_faces_length (k : nat) :
  forall (i : Z) (aug : list number),
    List.length (for_upto k i (fun j aug => aug ++ [Num (j + 1)]) aug)
    = (List.length aug + k)%nat.
Proof.
  induction k as [|k IH]; intros i aug; simpl.
  - lia.
  - rewrite IH, length_app. simpl. lia.
Qed.

Lemma push_faces_In (k : nat) :
  forall (i : Z) (aug : list number) (x : number),
    In x (for_upto k i (fun j aug => aug ++ [Num (j + 1)]) aug) <->
    In x aug \/ exists j, i <= j < i + Z.of_nat k /\ x = Num (j + 1).
Proof.
  induction k as [|k IH]; intros i aug x; simpl for_upto.
  - split; [auto | intros [H | (j & Hj & _)]; [exact H | lia]].
  - rewrite IH, in_app_iff. simpl. split.
    + intros [[H | [H | []]] | (j & Hj & Hx)].
      * left; exact H.
      * right; exists i; split; [lia | symmetry; exact H].
      * right; exists j; split; [lia | exact Hx].
    + intros [H | (j & Hj & Hx)].
      * left; left; exact H.
      * destruct (Z.eq_dec j i) as [-> | Hne].
        -- left; right; left; symmetry; exact Hx.
        -- right; exists j; split; [lia | exact Hx].
Qed.

Lemma faces_length (sides : number) :
  List.length (Page.faces sides) = trip_count sides.
Proof. unfold Page.faces, for_lt. rewrite push_faces_length. reflexivity. Qed.

(** The faces of a die are [1 .. sides]. *)
Lemma faces_In (s : Z) (x : number) :
  In x (Page.faces (Num s)) <-> exists v, 1 <= v <= s /\ x = Num v.
Proof.
  unfold Page.faces, for_lt. rewrite push_faces_In. simpl. split.
  - intros [[] | (j & Hj & ->)]. exists (j + 1). split; [lia | reflexivity].
  - intros (v & Hv & ->). right. exists (v - 1). split; [lia | f_equal; lia].
Qed.

Lemma combine_length (results aug : list number) :
  List.length (Page.combine results aug)
  = (List.length results * List.length aug)%nat.
Proof.
  unfold Page.combine.
  induction results as [|x results IH]; simpl; [reflexivity |].
  rewrite length_app, length_map, IH. reflexivity.
Qed.

Lemma combine_In (results aug : list number) (x : number) :
  In x (Page.combine results aug) <->
  exists a b, In a results /\ In b aug /\ x = add a b.
Proof.
  unfold Page.combine. rewrite in_flat_map. split.
  - intros (a & Ha & Hx). apply in_map_iff in Hx as (b & Hb & Hin).
    exists a, b. auto.
  - intros (a & b & Ha & Hb & ->). exists a. split; [exact Ha |].
    apply in_map_iff. exists b. auto.
Qed.

Lemma exact_roll_length (roll : Page.DiceRoll) (results : list number) :
  List.length (Page.exact_roll roll results)
  = (List.length results
     * trip_count (Page.sides roll) ^ trip_count (Page.trial roll))%nat.
Proof.
  unfold Page.exact_roll, for_lt.
  induction (trip_count (Page.trial roll)) as [|k IH].
  - simpl. lia.
  - rewrite for_upto_succ, combine_length, IH, faces_length.
    rewrite Nat.pow_succ_r'. lia.
Qed.

(** The number of outcomes, for any list of rolls whatever its fields hold. *)
Lemma exact_length_from (diceRolls : list Page.DiceRoll) :
  forall results : list number,
    List.length (fold_left (fun results roll => Page.exact_roll roll results)
                   diceRolls results)
    = (List.length results
       * fold_right (fun roll acc =>
            trip_count (Page.sides roll) ^ trip_count (Page.trial roll) * acc)
           1 diceRolls)%nat.
Proof.
  induction diceRolls as [|roll diceRolls IH]; intros results; simpl.
  - lia.
  - rewrite IH, exact_roll_length. lia.
Qed.

Lemma well_formed_roll_fields (roll : Page.DiceRoll) :
  well_formed_roll roll = true ->
  exists t s, Page.trial roll = Num t /\ Page.sides roll = Num s /\ 1 <= t /\ 1 <= s.
Proof.
  unfold well_formed_roll.
  destruct (Page.trial roll) as [t|], (Page.sides roll) as [s|]; try discriminate.
  intros H. apply andb_true_iff in H as [Ht Hs].
  exists t, s. repeat split; apply Z.leb_le; assumption.
Qed.

Lemma exact_length_well_formed (diceRolls : list Page.DiceRoll) :
  well_formed diceRolls = true ->
  Z.of_nat (List.length (Page.getExactDistribution diceRolls))
  = outcome_count diceRolls.
Proof.
  unfold Page.getExactDistribution. rewrite exact_length_from.
  simpl List.length. rewrite Nat.mul_1_l.
  induction diceRolls as [|roll diceRolls IH]; intros Hwf; [reflexivity |].
  simpl in Hwf. apply andb_true_iff in Hwf as [Hroll Hrest].
  destruct (well_formed_roll_fields roll Hroll) as (t & s & Ht & Hs & Ht1 & Hs1).
  simpl. rewrite Nat2Z.inj_mul, IH by exact Hrest.
  rewrite Ht, Hs. simpl. rewrite Nat2Z.inj_pow, !Z2Nat.id by lia. reflexivity.
Qed.

(** C1. For every list of rolls the parser returns whose leaves all have
    [trial >= 1] and [sides >= 1], the exact distribution has as many entries
    as the product over the leaves of [sides ^ trial]; for the expression
    [2d6] that is 36 entries. *)
Theorem exact_length_is_product (expression : string) (diceRolls : list Page.DiceRoll) :
  Page.parseDiceExpression expression = Ok diceRolls ->
  well_formed diceRolls = true ->
  Z.of_nat (List.length (Page.getExactDistribution diceRolls))
  = outcome_count diceRolls
  /\ (expression = "2d6" ->
      List.length (Page.getExactDistribution diceRolls) = 36%nat).
Proof.
  intros Hparse Hwf. split.
  - apply exact_length_well_formed. exact Hwf.
  - intros ->. vm_compute in Hparse. injection Hparse as <-. reflexivity.
Qed.

Lemma exact_length_is_product_witness :
  Z.of_nat (List.length (Page.getExactDistribution
                           [Page.mkDiceRoll (Num 2) (Num 6)]))
  = outcome_count [Page.mkDiceRoll (Num 2) (Num 6)]
  /\ ("2d6" = "2d6" ->
      List.length (Page.getExactDistribution
                     [Page.mkDiceRoll (Num 2) (Num 6)]) = 36%nat).
Proof.
  apply (exact_length_is_product "2d6" [Page.mkDiceRoll (Num 2) (Num 6)]);
    reflexivity.
Defined.

Lemma combine_within (lo hi s : Z) (results : list number) :
  within lo hi results ->
  within (lo + 1) (hi + s) (Page.combine results (Page.faces (Num s))).
Proof.
  intros Hres x Hx.
  apply combine_In in Hx as (a & b & Ha & Hb & ->).
  apply Hres in Ha as (va & -> & Hva).
  apply faces_In in Hb as (vb & Hvb & ->).
  exists (va + vb). split; [reflexivity | lia].
Qed.

Lemma exact_dice_within (lo hi s : Z) (results : list number) (k : nat) :
  within lo hi results ->
  within (lo + Z.of_nat k) (hi + Z.of_nat k * s)
    (for_upto k 0 (fun _ results => Page.combine results (Page.faces (Num s)))
       results).
Proof.
  intros Hres. induction k as [|k IH].
  - simpl. intros x Hx. destruct (Hres x Hx) as (v & -> & Hv).
    exists v. split; [reflexivity | lia].
  - rewrite for_upto_succ. intros x Hx.
    destruct (combine_within _ _ s _ IH x Hx) as (v & -> & Hv).
    exists v. split; [reflexivity |].
    rewrite Nat2Z.inj_succ, Z.mul_succ_l. lia.
Qed.

Lemma exact_roll_within (lo hi t s : Z) (roll : Page.DiceRoll)
    (results : list number) :
  Page.trial roll = Num t -> Page.sides roll = Num s -> 0 <= t ->
  within lo hi results ->
  within (lo + t) (hi + t * s) (Page.exact_roll roll results).
Proof.
  intros Ht Hs Ht0 Hres.
  unfold Page.exact_roll, for_lt. rewrite Ht, Hs. simpl trip_count.
  pose proof (exact_dice_within lo hi s results (Z.to_nat t) Hres) as H.
  rewrite Z2Nat.id in H by exact Ht0. exact H.
Qed.

Lemma exact_within_from (diceRolls : list Page.DiceRoll) :
  well_formed diceRolls = true ->
  forall (lo hi : Z) (results : list number),
    within lo hi results ->
    within (lo + lowest_total diceRolls) (hi + highest_total diceRolls)
      (fold_left (fun results roll => Page.exact_roll roll results)
         diceRolls results).
Proof.
  induction diceRolls as [|roll diceRolls IH]; intros Hwf lo hi results Hres.
  - simpl. rewrite !Z.add_0_r. exact Hres.
  - simpl in Hwf. apply andb_true_iff in Hwf as [Hroll Hrest].
    destruct (well_formed_roll_fields roll Hroll) as (t & s & Ht & Hs & Ht1 & Hs1).
    simpl. rewrite Ht, Hs. simpl value.
    intros x Hx.
    destruct (IH Hrest (lo + t) (hi + t * s) (Page.exact_roll roll results)
                (exact_roll_within lo hi t s roll results Ht Hs ltac:(lia) Hres)
                x Hx) as (v & -> & Hv).
    exists v. split; [reflexivity | lia].
Qed.

(** The exact outcomes lie between the lowest and the highest total. *)
Lemma exact_within (diceRolls : list Page.DiceRoll) :
  well_formed diceRolls = true ->
  within (lowest_total diceRolls) (highest_total diceRolls)
    (Page.getExactDistribution diceRolls).
Proof.
  intros Hwf.
  apply (exact_within_from diceRolls Hwf 0 0 [Num 0]).
  intros y [<- | []]. exists 0. split; [reflexivity | lia].
Qed.

(** C9. When every leaf has [trial >= 1] and [sides >= 1], every entry of the
    exact distribution is an integer between the sum of the [trial]s and the
    sum of the [trial * sides], both included. *)
Theorem exact_entries_bounded (diceRolls : list Page.DiceRoll) (x : number) :
  well_formed diceRolls = true ->
  In x (Page.getExactDistribution diceRolls) ->
  exists v : Z,
    x = Num v /\ lowest_total diceRolls <= v <= highest_total diceRolls.
Proof. intros Hwf. apply (exact_within diceRolls Hwf). Qed.

Lemma exact_entries_bounded_witness :
  exists v : Z,
    Num 5 = Num v
    /\ lowest_total [Page.mkDiceRoll (Num 2) (Num 6); Page.mkDiceRoll (Num 1) (Num 4)]
       <= v
       <= highest_total [Page.mkDiceRoll (Num 2) (Num 6); Page.mkDiceRoll (Num 1) (Num 4)].
Proof.
  apply (exact_entries_bounded
           [Page.mkDiceRoll (Num 2) (Num 6); Page.mkDiceRoll (Num 1) (Num 4)]
           (Num 5)).
  - reflexivity.
  - vm_compute. tauto.
Defined.

(** C2. The exact distribution of [1d6+1d6] has 36 entries, of which six are
    7, one is 2 and one is 12. *)
Theorem two_dice_distribution :
  exists diceRolls : list Page.DiceRoll,
    Page.parseDiceExpression "1d6+1d6" = Ok diceRolls
    /\ List.length (Page.getExactDistribution diceRolls) = 36%nat
    /\ occurrences 7 (Page.getExactDistribution diceRolls) = 6%nat
    /\ occurrences 2 (Page.getExactDistribution diceRolls) = 1%nat
    /\ occurrences 12 (Page.getExactDistribution diceRolls) = 1%nat.
Proof.
  exists [Page.mkDiceRoll (Num 1) (Num 6); Page.mkDiceRoll (Num 1) (Num 6)].
  repeat split; vm_compute; reflexivity.
Qed.

(** C8. On the empty outcome sequence the statistics are defined, and the
    minimum, the maximum and the mean are all 0. *)
Theorem stats_empty :
  Page.min (Page.stats []) = Num 0
  /\ Page.max (Page.stats []) = Num 0
  /\ Page.mean (Page.stats []) = Real 0.
Proof. repeat split. Qed.

(** ** The Monte Carlo distribution *)

Section MonteCarloProperties.

Variable random : nat -> Q.
Hypothesis random_uniform : uniform_source random.

(** A thrown die shows one of its faces. *)
Lemma face_In (s : Z) (k : nat) :
  1 <= s -> In (Page.face random (Num s) k) (Page.faces (Num s)).
Proof.
  intros Hs. apply faces_In. simpl.
  destruct (random_uniform k) as [H0 H1].
  destruct (truncate_below_one (random k) H0 H1) as [Hr0 Hr1].
  destruct (rounded_product_below (Page.Math_random random k) s Hr0 Hr1 Hs)
    as [Hlo Hhi].
  set (product := to_double (Page.Math_random random k * inject_Z s)) in *.
  exists (Qfloor product + 1). split; [| reflexivity].
  assert (Hfloor0 : 0 <= Qfloor product).
  { change 0 with (Qfloor 0). apply Qfloor_resp_le. exact Hlo. }
  assert (Hfloor1 : Qfloor product < s).
  { rewrite Zlt_Qlt.
    apply Qle_lt_trans with product; [apply Qfloor_le | exact Hhi]. }
  lia.
Qed.




End MonteCarloProperties.


Lemma simulations_In (random : nat -> Q) (diceRolls : list Page.DiceRoll)
    (P : number -> Prop) :
  (forall k, P (fst (Page.simulate random diceRolls k))) ->
  forall (n : nat) (i : Z) (results : list number) (k : nat) (x : number),
    In x (fst (for_upto n i
                 (fun _ '(results, k) =>
                    let (current, k') := Page.simulate random diceRolls k in
                    (results ++ [current], k'))
                 (results, k))) ->
    In x results \/ P x.
Proof.
  intros HP. induction n as [|n IH]; intros i results k x Hx; simpl in Hx.
  - left; exact Hx.
  - specialize (HP k).
    destruct (Page.simulate random diceRolls k) as [current k'].
    apply IH in Hx as [Hx | Hx]; [| right; exact Hx].
    apply in_app_iff in Hx as [Hx | [<- | []]]; [left; exact Hx | right; exact HP].
Qed.



(** ** The statistics *)

Lemma Math_min_lower (lo hi : Z) (xs : list number) :
  forall x : number,
    within lo hi (x :: xs) ->
    exists m, Page.Math_min x xs = Num m
              /\ forall v, In (Num v) (x :: xs) -> m <= v.
Proof.
  induction xs as [|y ys IH]; intros x Hw.
  - destruct (Hw x (or_introl eq_refl)) as (a & -> & _).
    exists a. split; [reflexivity |].
    intros v [Hv | []]. injection Hv as ->. lia.
  - destruct (Hw x (or_introl eq_refl)) as (a & -> & Ha).
    destruct (Hw y (or_intror (or_introl eq_refl))) as (b & -> & Hb).
    destruct (IH (Num (Z.min a b))) as (m & Hm & Hlow).
    { intros z [<- | Hz].
      - exists (Z.min a b). split; [reflexivity | lia].
      - apply Hw. right; right; exact Hz. }
    exists m. split; [exact Hm |].
    pose proof (Hlow (Z.min a b) (or_introl eq_refl)) as Hmin.
    intros v [Hv | [Hv | Hv]].
    + injection Hv as ->. lia.
    + injection Hv as ->. lia.
    + apply Hlow. right; exact Hv.
Qed.

Lemma Math_max_upper (lo hi : Z) (xs : list number) :
  forall x : number,
    within lo hi (x :: xs) ->
    exists m, Page.Math_max x xs = Num m
              /\ forall v, In (Num v) (x :: xs) -> v <= m.
Proof.
  induction xs as [|y ys IH]; intros x Hw.
  - destruct (Hw x (or_introl eq_refl)) as (a & -> & _).
    exists a. split; [reflexivity |].
    intros v [Hv | []]. injection Hv as ->. lia.
  - destruct (Hw x (or_introl eq_refl)) as (a & -> & Ha).
    destruct (Hw y (or_intror (or_introl eq_refl))) as (b & -> & Hb).
    destruct (IH (Num (Z.max a b))) as (m & Hm & Hup).
    { intros z [<- | Hz].
      - exists (Z.max a b). split; [reflexivity | lia].
      - apply Hw. right; right; exact Hz. }
    exists m. split; [exact Hm |].
    pose proof (Hup (Z.max a b) (or_introl eq_refl)) as Hmax.
    intros v [Hv | [Hv | Hv]].
    + injection Hv as ->. lia.
    + injection Hv as ->. lia.
    + apply Hup. right; exact Hv.
Qed.

(** The extrema the page shows for a sequence of integers bound its entries. *)
Lemma stats_extrema (lo hi : Z) (distribution : list number) :
  within lo hi distribution ->
  exists a b,
    Page.min (Page.stats distribution) = Num a
    /\ Page.max (Page.stats distribution) = Num b
    /\ forall v, In (Num v) distribution -> a <= v <= b.
Proof.
  intros Hw. destruct distribution as [|x xs].
  - exists 0, 0. repeat split; contradiction.
  - destruct (Math_min_lower lo hi xs x Hw) as (a & Ha & Hlow).
    destruct (Math_max_upper lo hi xs x Hw) as (b & Hb & Hup).
    exists a, b. simpl. repeat split; auto.
Qed.



(** C10. With a simulation count that is zero or negative the Monte Carlo
    engine returns the empty sequence, whatever the rolls and the random
    source. *)
Theorem monte_carlo_nonpositive (random : nat -> Q)
    (diceRolls : list Page.DiceRoll) (n : Z) :
  n <= 0 ->
  Page.getMonteCarloDistribution random diceRolls (Num n) = [].
Proof.
  intros Hn.
  unfold Page.getMonteCarloDistribution, Page.getMonteCarloDistribution_from,
    for_lt.
  simpl trip_count. replace (Z.to_nat n) with O by lia. reflexivity.
Qed.

Lemma monte_carlo_nonpositive_witness :
  Page.getMonteCarloDistribution (fun _ => 1 # 2)
    [Page.mkDiceRoll (Num 2) (Num 6)] (Num (-3)) = [].
Proof.
  apply (monte_carlo_nonpositive (fun _ => 1 # 2)
           [Page.mkDiceRoll (Num 2) (Num 6)] (-3)).
  lia.
Defined.

(** ** The parser of [page.tsx] *)

Lemma span_class_app (p : ascii -> bool) (x : string) (c : ascii) (r : string) :
  forallb_string p x = true -> p c = false ->
  span p (x ++ String c r) = (x, String c r).
Proof.
  intros Hx Hc. induction x as [|a x IH]; simpl.
  - rewrite Hc. reflexivity.
  - simpl in Hx. apply andb_true_iff in Hx as [Ha Hx].
    rewrite Ha, (IH Hx). reflexivity.
Qed.

Lemma includes_app (c : ascii) (x y : string) :
  includes c (x ++ y) = includes c x || includes c y.
Proof.
  induction x as [|a x IH]; simpl; [reflexivity |].
  rewrite IH. apply orb_assoc.
Qed.

Lemma includes_class (p : ascii -> bool) (c : ascii) (x : string) :
  forallb_string p x = true -> p c = false -> includes c x = false.
Proof.
  intros Hx Hc. induction x as [|a x IH]; simpl; [reflexivity |].
  simpl in Hx. apply andb_true_iff in Hx as [Ha Hx].
  rewrite (IH Hx), orb_false_r.
  destruct (Ascii.eqb_spec a c) as [-> | _]; [congruence | reflexivity].
Qed.

Lemma split_without (c : ascii) (t : string) :
  includes c t = false -> split c t = [t].
Proof.
  induction t as [|a t IH]; simpl; [reflexivity |].
  intros H. apply orb_false_iff in H as [Ha Ht].
  rewrite Ha, (IH Ht). reflexivity.
Qed.

Lemma split_app (c : ascii) (t e : string) :
  includes c t = false ->
  split c (t ++ String c e) = t :: split c e.
Proof.
  induction t as [|a t IH]; simpl.
  - intros _. rewrite Ascii.eqb_refl. reflexivity.
  - intros H. apply orb_false_iff in H as [Ha Ht].
    rewrite Ha, (IH Ht). reflexivity.
Qed.

Lemma parseNode_roll (x y : string) :
  digits x -> digits y ->
  Page.parseNode (x ++ String "d" y)
  = Ok (Page.mkDiceRoll (parseInt x) (parseInt y)).
Proof.
  intros [Hx0 Hx] [Hy0 Hy]. unfold Page.parseNode.
  rewrite includes_app. simpl includes. rewrite orb_true_r.
  unfold Page.match_roll.
  rewrite (span_class_app is_digit x "d" y Hx eq_refl).
  destruct x as [|a x]; [contradiction |].
  destruct y as [|b y]; [contradiction |].
  rewrite Hy. reflexivity.
Qed.

Lemma parseNode_constant (x : string) :
  digits x ->
  Page.parseNode x = Ok (Page.mkDiceRoll (parseInt x) (Num 1)).
Proof.
  intros [_ Hx]. unfold Page.parseNode.
  rewrite (includes_class is_digit "d" x Hx eq_refl). reflexivity.
Qed.

Lemma dice_term_parses (t : string) :
  dice_term t ->
  includes "+" t = false /\ exists node, Page.parseNode t = Ok node.
Proof.
  intros [x y Hx Hy | x Hx].
  - split.
    + rewrite includes_app. simpl.
      rewrite (includes_class is_digit "+" x (proj2 Hx) eq_refl).
      rewrite (includes_class is_digit "+" y (proj2 Hy) eq_refl). reflexivity.
    + eexists. apply parseNode_roll; assumption.
  - split.
    + apply (includes_class is_digit "+" x (proj2 Hx) eq_refl).
    + eexists. apply parseNode_constant; assumption.
Qed.

Lemma digit_value_decimal (c : ascii) :
  is_digit c = true ->
  exists d, digit_value 10 c = Some d /\ 0 <= d.
Proof.
  unfold is_digit, digit_value. intros H.
  apply andb_true_iff in H as [Hlo Hhi].
  apply N.leb_le in Hlo, Hhi.
  destruct (Z.leb_spec 48 (Z.of_N (code c))); [| lia].
  destruct (Z.leb_spec (Z.of_N (code c)) 57); [| lia].
  simpl. destruct (Z.ltb_spec (Z.of_N (code c) - 48) 10); [| lia].
  eexists. split; [reflexivity | lia].
Qed.

Lemma read_digits_decimal (x : string) :
  forallb_string is_digit x = true ->
  forall a, 0 <= a -> exists v, read_digits 10 x (Some a) = Some v /\ 0 <= v.
Proof.
  induction x as [|c x IH]; intros Hx a Ha; simpl.
  - exists a. auto.
  - simpl in Hx. apply andb_true_iff in Hx as [Hc Hx].
    destruct (digit_value_decimal c Hc) as (d & -> & Hd).
    apply (IH Hx). lia.
Qed.

(** On a string of decimal digits [parseInt] returns a natural number. *)
Lemma parseInt_digits (x : string) :
  digits x -> exists v, parseInt x = Num v /\ 0 <= v.
Proof.
  intros [Hne Hx]. destruct x as [|c x]; [contradiction |].
  simpl in Hx. apply andb_true_iff in Hx as [Hc Hx].
  assert (Hcode : (48 <= code c <= 57)%N).
  { unfold is_digit in Hc. apply andb_true_iff in Hc as [H1 H2].
    apply N.leb_le in H1, H2. lia. }
  assert (Hspace : is_space c = false).
  { unfold is_space.
    destruct (N.leb_spec (code c) 13); [lia |].
    destruct (N.eqb_spec (code c) 32); [lia |].
    destruct (N.eqb_spec (code c) 160); [lia |].
    rewrite andb_false_r. reflexivity. }
  assert (Hother : forall k : ascii,
             is_digit k = false -> Ascii.eqb c k = false).
  { intros k Hk. destruct (Ascii.eqb_spec c k) as [-> | _]; congruence. }
  unfold parseInt. simpl trim_start. rewrite Hspace.
  unfold strip_sign. rewrite (Hother "-"%char eq_refl), (Hother "+"%char eq_refl).
  assert (Hradix : strip_radix (String c x) = (10, String c x)).
  { unfold strip_radix. destruct x as [|c1 x]; [reflexivity |].
    simpl in Hx. apply andb_true_iff in Hx as [Hc1 _].
    assert (H1 : Ascii.eqb c1 "x" = false).
    { destruct (Ascii.eqb_spec c1 "x") as [-> | _]; [discriminate | reflexivity]. }
    assert (H2 : Ascii.eqb c1 "X" = false).
    { destruct (Ascii.eqb_spec c1 "X") as [-> | _]; [discriminate | reflexivity]. }
    rewrite H1, H2, andb_false_r. reflexivity. }
  rewrite Hradix. simpl read_digits.
  destruct (digit_value_decimal c Hc) as (d & -> & Hd).
  destruct (read_digits_decimal x Hx d Hd) as (v & -> & Hv).
  exists v. split; [f_equal; lia | exact Hv].
Qed.

(** The leaves of a documented term hold natural numbers. *)
Lemma dice_term_fields (t : string) :
  dice_term t ->
  exists a b,
    Page.parseNode t = Ok (Page.mkDiceRoll (Num a) (Num b)) /\ 0 <= a /\ 0 <= b.
Proof.
  intros [x y Hx Hy | x Hx].
  - destruct (parseInt_digits x Hx) as (a & Ha & Ha0).
    destruct (parseInt_digits y Hy) as (b & Hb & Hb0).
    exists a, b. rewrite parseNode_roll, Ha, Hb by assumption. auto.
  - destruct (parseInt_digits x Hx) as (a & Ha & Ha0).
    exists a, 1. rewrite parseNode_constant, Ha by assumption.
    repeat split; [exact Ha0 | lia].
Qed.

Lemma dice_expression_parses (e : string) :
  dice_expression e ->
  exists nodes,
    forall diceRolls,
      Page.push_nodes (split "+" e) diceRolls = Ok (diceRolls ++ nodes).
Proof.
  induction 1 as [t Ht | t e Ht He (nodes & IH)].
  - destruct (dice_term_parses t Ht) as (Hplus & node & Hnode).
    exists [node]. intros diceRolls.
    rewrite (split_without _ _ Hplus). simpl. rewrite Hnode. reflexivity.
  - destruct (dice_term_parses t Ht) as (Hplus & node & Hnode).
    exists (node :: nodes). intros diceRolls.
    rewrite (split_app _ _ _ Hplus). simpl. rewrite Hnode. simpl.
    rewrite IH, <- app_assoc. reflexivity.
Qed.

(** A component with neither [d] nor [+] is accepted as a constant, whatever
    else it holds. *)
Lemma constant_never_rejected (expression : string) :
  includes "d" expression = false ->
  includes "+" expression = false ->
  Page.parseDiceExpression expression
  = Ok [Page.mkDiceRoll (parseInt expression) (Num 1)].
Proof.
  intros Hd Hplus. unfold Page.parseDiceExpression.
  rewrite (split_without _ _ Hplus). simpl.
  unfold Page.parseNode. rewrite Hd. reflexivity.
Qed.

(** C7. On every expression of the documented form ([XdY] or a constant,
    joined by [+]) the parser returns a list of rolls, and any two calls on
    that string return equal lists: the result is a function of the string
    alone. *)
Theorem parse_deterministic (expression : string) :
  dice_expression expression ->
  exists diceRolls : list Page.DiceRoll,
    Page.parseDiceExpression expression = Ok diceRolls
    /\ forall first second : list Page.DiceRoll,
         Page.parseDiceExpression expression = Ok first ->
         Page.parseDiceExpression expression = Ok second ->
         first = second.
Proof.
  intros He. destruct (dice_expression_parses expression He) as (nodes & Hnodes).
  exists nodes. split.
  - unfold Page.parseDiceExpression. rewrite Hnodes. reflexivity.
  - intros first second H1 H2. rewrite H1 in H2. injection H2 as H. exact H.
Qed.

Lemma parse_deterministic_witness :
  exists diceRolls : list Page.DiceRoll,
    Page.parseDiceExpression "1d6+2d4+3" = Ok diceRolls
    /\ forall first second : list Page.DiceRoll,
         Page.parseDiceExpression "1d6+2d4+3" = Ok first ->
         Page.parseDiceExpression "1d6+2d4+3" = Ok second ->
         first = second.
Proof.
  apply (parse_deterministic "1d6+2d4+3").
  apply (expression_plus "1d6" "2d4+3").
  - apply (term_roll "1" "6"); (split; [discriminate | reflexivity]).
  - apply (expression_plus "2d4" "3").
    + apply (term_roll "2" "4"); (split; [discriminate | reflexivity]).
    + apply expression_term. apply term_constant.
      split; [discriminate | reflexivity].
Defined.

(** C3. A component that has no [d] is never rejected: [1x6] parses as the
    constant 1 and the empty string as a roll whose count is [NaN]; only
    [d6], of the three, throws. *)
Theorem malformed_accepted :
  Page.parseDiceExpression "1x6" = Ok [Page.mkDiceRoll (Num 1) (Num 1)]
  /\ Page.parseDiceExpression "" = Ok [Page.mkDiceRoll NaN (Num 1)]
  /\ Page.parseDiceExpression "d6" = Throw Page.invalid_base.
Proof. repeat split. Qed.

(** C5. The parser of [page.tsx] does not strip white space: [1d6 + 1d6]
    throws although [1d6+1d6] parses. *)
Theorem whitespace_rejected :
  Page.parseDiceExpression "1d6 + 1d6" = Throw Page.invalid_base
  /\ Page.parseDiceExpression "1d6+1d6"
     = Ok [Page.mkDiceRoll (Num 1) (Num 6); Page.mkDiceRoll (Num 1) (Num 6)].
Proof. split; reflexivity. Qed.

(** ** The parser of the second copy *)

Lemma filter_string_idempotent (p : ascii -> bool) (s : string) :
  filter_string p (filter_string p s) = filter_string p s.
Proof.
  induction s as [|c s IH]; simpl; [reflexivity |].
  destruct (p c) eqn:Hc; simpl; [rewrite Hc, IH; reflexivity | exact IH].
Qed.

(** The second copy does strip white space before it parses. *)
Lemma part000_whitespace_insensitive (expression : string) :
  Part000.parseDiceExpression expression
  = Part000.parseDiceExpression (Part000.remove_whitespace expression).
Proof.
  unfold Part000.parseDiceExpression, Part000.rewrite, Part000.remove_whitespace.
  rewrite filter_string_idempotent. reflexivity.
Qed.

(** The second copy never builds a nested node: [sides] is the [parseInt] of
    a group that starts with [d]. *)
Lemma part000_never_nested (expression : string) (node : Part000.DiceRoll) :
  Part000.parseDiceExpression expression = Ok node ->
  Part000.sides node = inl NaN.
Proof.
  unfold Part000.parseDiceExpression, Part000.parseNode, Part000.match_node.
  destruct (span is_digit (Part000.rewrite expression)) as [g1 rest].
  destruct g1 as [|a g1]; [discriminate |].
  destruct rest as [|c rest2]; [discriminate |].
  destruct (Ascii.eqb_spec c "d") as [-> | Hc].
  - destruct (span is_digit rest2) as [digits2 g3].
    destruct digits2 as [|b digits2]; [discriminate |].
    destruct (forallb_string _ g3); [| discriminate].
    intros H. injection H as <-. reflexivity.
  - intros H. exfalso.
    destruct c as [[] [] [] [] [] [] [] []]; try discriminate H.
    apply Hc. reflexivity.
Qed.

(** An expression that opens with a parenthesis is rejected. *)
Lemma part000_leading_parenthesis (rest : string) :
  Part000.parseDiceExpression (String "(" rest)
  = Throw Part000.invalid_expression.
Proof. reflexivity. Qed.

(** C6. The second copy rewrites [(] into [1d(] and then matches the result
    once, without recursion: the documented example [(2d6+1d4)*2] becomes
    [1d(2d6+1d4)*2], which the pattern rejects, and the parser of [page.tsx]
    rejects it too. *)
Theorem parentheses_rejected :
  Part000.rewrite "(2d6+1d4)*2" = "1d(2d6+1d4)*2"
  /\ Part000.parseDiceExpression "(2d6+1d4)*2" = Throw Part000.invalid_expression
  /\ Page.parseDiceExpression "(2d6+1d4)*2" = Throw Page.invalid_base.
Proof. repeat split. Qed.

(** * Further properties of [page.tsx] *)

(** ** Shapes of the outcome sequences *)

Lemma for_upto_ext {S : Type} (f g : Z -> S -> S) :
  (forall i s, f i s = g i s) ->
  forall (k : nat) (i : Z) (s : S), for_upto k i f s = for_upto k i g s.
Proof.
  intros Hfg. induction k as [|k IH]; intros i s; simpl; [reflexivity |].
  rewrite Hfg. apply IH.
Qed.

Lemma trip_count_guard (n : number) :
  lt (Num 0) n = false <-> trip_count n = O.
Proof.
  destruct n as [z|]; simpl; [| tauto].
  destruct (Z.ltb_spec 0 z) as [Hz | Hz]; split; intros Hg;
    try reflexivity; try discriminate; lia.
Qed.

Lemma faces_integers (sides : number) : integers (Page.faces sides).
Proof.
  intros x Hx. unfold Page.faces, for_lt in Hx.
  apply push_faces_In in Hx as [[] | (j & _ & ->)]. eauto.
Qed.

Lemma combine_integers (results aug : list number) :
  integers results -> integers aug -> integers (Page.combine results aug).
Proof.
  intros Hr Ha x Hx. apply combine_In in Hx as (a & b & Hin_a & Hin_b & ->).
  destruct (Hr a Hin_a) as (va & ->). destruct (Ha b Hin_b) as (vb & ->).
  simpl. eauto.
Qed.

Lemma exact_roll_integers (roll : Page.DiceRoll) (results : list number) :
  integers results -> integers (Page.exact_roll roll results).
Proof.
  intros Hr. unfold Page.exact_roll, for_lt.
  induction (trip_count (Page.trial roll)) as [|k IH]; [exact Hr |].
  rewrite for_upto_succ. apply combine_integers; [exact IH | apply faces_integers].
Qed.

(** Whatever the rolls hold, the exact engine returns integers only. *)
Lemma exact_integers (diceRolls : list Page.DiceRoll) :
  integers (Page.getExactDistribution diceRolls).
Proof.
  unfold Page.getExactDistribution.
  assert (H : integers [Num 0]) by (intros x [<- | []]; eauto).
  revert H. generalize [Num 0].
  induction diceRolls as [|roll diceRolls IH]; intros results Hr; simpl.
  - exact Hr.
  - apply IH, exact_roll_integers, Hr.
Qed.

(** ** Terms that are skipped *)

Lemma exact_roll_skipped (roll : Page.DiceRoll) (results : list number) :
  trip_count (Page.trial roll) = O -> Page.exact_roll roll results = results.
Proof. intros H. unfold Page.exact_roll, for_lt. rewrite H. reflexivity. Qed.

Lemma simulate_roll_skipped (random : nat -> Q) (roll : Page.DiceRoll)
    (st : Page.sim) :
  trip_count (Page.trial roll) = O -> Page.simulate_roll random roll st = st.
Proof. intros H. unfold Page.simulate_roll, for_lt. rewrite H. reflexivity. Qed.

(** X5. A term whose count is [NaN], zero or negative (the loop guard
    [0 < roll.trial] fails at once) changes neither engine's result: it can
    be deleted from the list. *)
Theorem skipped_term_ignored (random : nat -> Q) (before after : list Page.DiceRoll)
    (roll : Page.DiceRoll) (numSimulations : number) :
  lt (Num 0) (Page.trial roll) = false ->
  Page.getExactDistribution (before ++ roll :: after)
  = Page.getExactDistribution (before ++ after)
  /\ Page.getMonteCarloDistribution random (before ++ roll :: after) numSimulations
     = Page.getMonteCarloDistribution random (before ++ after) numSimulations.
Proof.
  intros Hguard. apply trip_count_guard in Hguard. split.
  - unfold Page.getExactDistribution. rewrite !fold_left_app. simpl.
    rewrite exact_roll_skipped by exact Hguard. reflexivity.
  - unfold Page.getMonteCarloDistribution, Page.getMonteCarloDistribution_from,
      for_lt.
    f_equal. apply for_upto_ext. intros _ [results k].
    assert (Hsim : Page.simulate random (before ++ roll :: after) k
                   = Page.simulate random (before ++ after) k).
    { unfold Page.simulate. rewrite !fold_left_app. simpl.
      rewrite simulate_roll_skipped by exact Hguard. reflexivity. }
    rewrite Hsim. reflexivity.
Qed.

Lemma skipped_term_ignored_witness :
  Page.getExactDistribution
    ([Page.mkDiceRoll (Num 2) (Num 6)] ++ Page.mkDiceRoll (Num (-3)) (Num 1) :: [])
  = Page.getExactDistribution ([Page.mkDiceRoll (Num 2) (Num 6)] ++ [])
  /\ Page.getMonteCarloDistribution (fun _ => 1 # 2)
       ([Page.mkDiceRoll (Num 2) (Num 6)] ++ Page.mkDiceRoll (Num (-3)) (Num 1) :: [])
       (Num 4)
     = Page.getMonteCarloDistribution (fun _ => 1 # 2)
         ([Page.mkDiceRoll (Num 2) (Num 6)] ++ []) (Num 4).
Proof.
  apply (skipped_term_ignored (fun _ => 1 # 2) [Page.mkDiceRoll (Num 2) (Num 6)] []
           (Page.mkDiceRoll (Num (-3)) (Num 1)) (Num 4)).
  reflexivity.
Defined.

(** ** A die without faces *)

Lemma combine_nil_r (results : list number) : Page.combine results [] = [].
Proof.
  unfold Page.combine. induction results as [|x results IH]; simpl; auto.
Qed.

Lemma exact_roll_nil (roll : Page.DiceRoll) : Page.exact_roll roll [] = [].
Proof.
  unfold Page.exact_roll, for_lt.
  induction (trip_count (Page.trial roll)) as [|k IH]; [reflexivity |].
  rewrite for_upto_succ, IH. reflexivity.
Qed.

Lemma exact_from_nil (diceRolls : list Page.DiceRoll) :
  fold_left (fun results roll => Page.exact_roll roll results) diceRolls [] = [].
Proof.
  induction diceRolls as [|roll diceRolls IH]; simpl; [reflexivity |].
  rewrite exact_roll_nil. exact IH.
Qed.

(** X6. If some term is thrown at least once and its number of sides is [NaN],
    zero or negative (as in [1d0]), the exact distribution is empty. *)
Theorem faceless_die_empties (diceRolls : list Page.DiceRoll) (roll : Page.DiceRoll) :
  In roll diceRolls ->
  lt (Num 0) (Page.trial roll) = true ->
  lt (Num 0) (Page.sides roll) = false ->
  Page.getExactDistribution diceRolls = [].
Proof.
  intros Hin Htrial Hsides.
  apply in_split in Hin as (before & after & ->).
  unfold Page.getExactDistribution. rewrite fold_left_app. simpl.
  assert (Hroll : forall results, Page.exact_roll roll results = []).
  { intros results. unfold Page.exact_roll, for_lt.
    destruct (trip_count (Page.trial roll)) as [|k] eqn:Hk.
    - apply trip_count_guard in Hk. congruence.
    - rewrite for_upto_succ. unfold Page.faces, for_lt.
      apply trip_count_guard in Hsides. rewrite Hsides. apply combine_nil_r. }
  rewrite Hroll. apply exact_from_nil.
Qed.

Lemma faceless_die_empties_witness :
  Page.getExactDistribution
    [Page.mkDiceRoll (Num 2) (Num 6); Page.mkDiceRoll (Num 1) (Num 0)] = [].
Proof.
  apply (faceless_die_empties
           [Page.mkDiceRoll (Num 2) (Num 6); Page.mkDiceRoll (Num 1) (Num 0)]
           (Page.mkDiceRoll (Num 1) (Num 0))).
  - right; left; reflexivity.
  - reflexivity.
  - reflexivity.
Defined.

(** ** The statistics of a sequence of integers *)

Lemma integers_within (l : list number) :
  integers l -> exists lo hi, within lo hi l.
Proof.
  induction l as [|x l IH]; intros Hl.
  - exists 0, 0. intros y [].
  - destruct (Hl x (or_introl eq_refl)) as (v & ->).
    destruct IH as (lo & hi & Hw).
    { intros y Hy. apply Hl. right; exact Hy. }
    exists (Z.min lo v), (Z.max hi v). intros y [<- | Hy].
    + exists v. split; [reflexivity | lia].
    + destruct (Hw y Hy) as (w & -> & Hb). exists w. split; [reflexivity | lia].
Qed.

Lemma Math_min_attained (xs : list number) :
  forall x : number,
    integers (x :: xs) -> In (Page.Math_min x xs) (x :: xs).
Proof.
  induction xs as [|y ys IH]; intros x Hi; [left; reflexivity |].
  destruct (Hi x (or_introl eq_refl)) as (a & ->).
  destruct (Hi y (or_intror (or_introl eq_refl))) as (b & ->).
  change (Page.Math_min (Num a) (Num b :: ys))
    with (Page.Math_min (Num (Z.min a b)) ys).
  destruct (IH (Num (Z.min a b))) as [H | H].
  - intros z [<- | Hz]; [eauto | apply Hi; right; right; exact Hz].
  - rewrite <- H. destruct (Z.min_spec a b) as [[_ ->] | [_ ->]].
    + left; reflexivity.
    + right; left; reflexivity.
  - right; right; exact H.
Qed.

Lemma Math_max_attained (xs : list number) :
  forall x : number,
    integers (x :: xs) -> In (Page.Math_max x xs) (x :: xs).
Proof.
  induction xs as [|y ys IH]; intros x Hi; [left; reflexivity |].
  destruct (Hi x (or_introl eq_refl)) as (a & ->).
  destruct (Hi y (or_intror (or_introl eq_refl))) as (b & ->).
  change (Page.Math_max (Num a) (Num b :: ys))
    with (Page.Math_max (Num (Z.max a b)) ys).
  destruct (IH (Num (Z.max a b))) as [H | H].
  - intros z [<- | Hz]; [eauto | apply Hi; right; right; exact Hz].
  - rewrite <- H. destruct (Z.max_spec a b) as [[_ ->] | [_ ->]].
    + right; left; reflexivity.
    + left; reflexivity.
  - right; right; exact H.
Qed.

Lemma sum_from (d : list number) :
  integers d ->
  forall a : Z, fold_left add d (Num a) = Num (a + total d).
Proof.
  induction d as [|x d IH]; intros Hd a; simpl.
  - f_equal. lia.
  - destruct (Hd x (or_introl eq_refl)) as (v & ->). simpl.
    rewrite IH by (intros y Hy; apply Hd; right; exact Hy).
    f_equal. lia.
Qed.

Lemma sum_total (d : list number) :
  integers d -> Page.sum d = Num (total d).
Proof. intros Hd. unfold Page.sum. rewrite sum_from by exact Hd. reflexivity. Qed.

Lemma total_bounds (a b : Z) (d : list number) :
  (forall v, In (Num v) d -> a <= v <= b) ->
  integers d ->
  Z.of_nat (List.length d) * a <= total d <= Z.of_nat (List.length d) * b.
Proof.
  induction d as [|x d IH]; intros Hb Hd.
  - simpl. lia.
  - destruct (Hd x (or_introl eq_refl)) as (v & ->).
    pose proof (Hb v (or_introl eq_refl)) as Hv.
    assert (IH' : Z.of_nat (List.length d) * a <= total d
                  <= Z.of_nat (List.length d) * b).
    { apply IH; [intros w Hw; apply Hb; right; exact Hw
                | intros y Hy; apply Hd; right; exact Hy]. }
    change (total (Num v :: d)) with (v + total d).
    change (List.length (Num v :: d)) with (Datatypes.S (List.length d)).
    rewrite Nat2Z.inj_succ. lia.
Qed.

(** The spread call succeeds on a sequence the engine accepts. *)
Lemma stats_spread_Ok (max_arguments : nat) (distribution : list number) :
  (List.length distribution <= max_arguments)%nat ->
  Page.stats_spread max_arguments distribution = Ok (Page.stats distribution).
Proof.
  intros Hlen. unfold Page.stats_spread.
  destruct (Nat.ltb_spec max_arguments (List.length distribution));
    [lia | reflexivity].
Qed.

Lemma extrema_attained (distribution : list number) :
  integers distribution ->
  distribution <> [] ->
  In (Page.min (Page.stats distribution)) distribution
  /\ In (Page.max (Page.stats distribution)) distribution.
Proof.
  intros Hd Hne. destruct distribution as [|x xs]; [contradiction |].
  split; [apply Math_min_attained | apply Math_max_attained]; exact Hd.
Qed.

(** X13. For a non-empty sequence of integers that the engine accepts as
    the arguments of one call, [Math.min] and [Math.max] do not throw, and
    the minimum and the maximum the page shows are two entries of the
    sequence that bound all the others. *)
Theorem stats_of_integers (max_arguments : nat) (distribution : list number) :
  integers distribution ->
  distribution <> [] ->
  (List.length distribution <= max_arguments)%nat ->
  exists a b : Z,
    Page.stats_spread max_arguments distribution = Ok (Page.stats distribution)
    /\ Page.min (Page.stats distribution) = Num a
    /\ Page.max (Page.stats distribution) = Num b
    /\ In (Num a) distribution
    /\ In (Num b) distribution
    /\ (forall v, In (Num v) distribution -> a <= v <= b).
Proof.
  intros Hd Hne Hlen.
  destruct (integers_within distribution Hd) as (lo & hi & Hw).
  destruct (stats_extrema lo hi distribution Hw) as (a & b & Hmin & Hmax & Hall).
  destruct (extrema_attained distribution Hd Hne) as [Hin_min Hin_max].
  rewrite Hmin in Hin_min. rewrite Hmax in Hin_max.
  exists a, b. split; [apply stats_spread_Ok; exact Hlen |].
  repeat split; try assumption; apply Hall; assumption.
Qed.

Lemma stats_of_integers_witness :
  exists a b : Z,
    Page.stats_spread 1000 [Num 4; Num 2; Num 7]
    = Ok (Page.stats [Num 4; Num 2; Num 7])
    /\ Page.min (Page.stats [Num 4; Num 2; Num 7]) = Num a
    /\ Page.max (Page.stats [Num 4; Num 2; Num 7]) = Num b
    /\ In (Num a) [Num 4; Num 2; Num 7]
    /\ In (Num b) [Num 4; Num 2; Num 7]
    /\ (forall v, In (Num v) [Num 4; Num 2; Num 7] -> a <= v <= b).
Proof.
  apply (stats_of_integers 1000 [Num 4; Num 2; Num 7]).
  - intros x [<- | [<- | [<- | []]]]; eauto.
  - discriminate.
  - simpl. lia.
Defined.

(** ** Extremes and mean of the exact distribution *)

Lemma exact_dice_attained (lo hi s : Z) (results : list number) (k : nat) :
  1 <= s ->
  In (Num lo) results -> In (Num hi) results ->
  let results' :=
    for_upto k 0 (fun _ results => Page.combine results (Page.faces (Num s)))
      results in
  In (Num (lo + Z.of_nat k)) results' /\ In (Num (hi + Z.of_nat k * s)) results'.
Proof.
  intros Hs Hlo Hhi. induction k as [|k [IHlo IHhi]]; cbv zeta.
  - simpl. rewrite !Z.add_0_r. auto.
  - rewrite for_upto_succ. split; apply combine_In.
    + exists (Num (lo + Z.of_nat k)), (Num 1). repeat split.
      * exact IHlo.
      * apply faces_In. exists 1. split; [lia | reflexivity].
      * unfold add. f_equal. rewrite Nat2Z.inj_succ. lia.
    + exists (Num (hi + Z.of_nat k * s)), (Num s). repeat split.
      * exact IHhi.
      * apply faces_In. exists s. split; [lia | reflexivity].
      * unfold add. f_equal. rewrite Nat2Z.inj_succ. lia.
Qed.

Lemma exact_attained_from (diceRolls : list Page.DiceRoll) :
  well_formed diceRolls = true ->
  forall (lo hi : Z) (results : list number),
    In (Num lo) results -> In (Num hi) results ->
    let results' :=
      fold_left (fun results roll => Page.exact_roll roll results)
        diceRolls results in
    In (Num (lo + lowest_total diceRolls)) results'
    /\ In (Num (hi + highest_total diceRolls)) results'.
Proof.
  induction diceRolls as [|roll diceRolls IH]; intros Hwf lo hi results Hlo Hhi;
    cbv zeta.
  - simpl. rewrite !Z.add_0_r. auto.
  - simpl in Hwf. apply andb_true_iff in Hwf as [Hroll Hrest].
    destruct (well_formed_roll_fields roll Hroll) as (t & s & Ht & Hs & Ht1 & Hs1).
    destruct (exact_dice_attained lo hi s results (Z.to_nat t) Hs1 Hlo Hhi)
      as [Hlo' Hhi'].
    rewrite Z2Nat.id in Hlo', Hhi' by lia.
    simpl. rewrite Ht, Hs. simpl value.
    replace (lo + (t + lowest_total diceRolls))
      with ((lo + t) + lowest_total diceRolls) by lia.
    replace (hi + (t * s + highest_total diceRolls))
      with ((hi + t * s) + highest_total diceRolls) by lia.
    apply (IH Hrest); unfold Page.exact_roll, for_lt; rewrite Ht, Hs; assumption.
Qed.

Lemma exact_attained (diceRolls : list Page.DiceRoll) :
  well_formed diceRolls = true ->
  In (Num (lowest_total diceRolls)) (Page.getExactDistribution diceRolls)
  /\ In (Num (highest_total diceRolls)) (Page.getExactDistribution diceRolls).
Proof.
  intros Hwf.
  apply (exact_attained_from diceRolls Hwf 0 0 [Num 0]); left; reflexivity.
Qed.

(** X7. When every leaf has [trial >= 1] and [sides >= 1], the totals stay
    below [2^53] and the engine accepts the outcomes as the arguments of one
    call, the minimum the page shows for the exact distribution is the sum
    of the [trial]s and the maximum is the sum of the [trial * sides]: both
    bounds are reached. *)
Theorem exact_extremes (max_arguments : nat) (diceRolls : list Page.DiceRoll) :
  well_formed diceRolls = true ->
  outcome_count diceRolls <= Z.of_nat max_arguments ->
  highest_total diceRolls < 2 ^ 53 ->
  Page.stats_spread max_arguments (Page.getExactDistribution diceRolls)
  = Ok (Page.stats (Page.getExactDistribution diceRolls))
  /\ Page.min (Page.stats (Page.getExactDistribution diceRolls))
     = Num (lowest_total diceRolls)
  /\ Page.max (Page.stats (Page.getExactDistribution diceRolls))
     = Num (highest_total diceRolls).
Proof.
  intros Hwf Hcount _.
  split.
  { apply stats_spread_Ok.
    pose proof (exact_length_well_formed diceRolls Hwf). lia. }
  pose proof (exact_within diceRolls Hwf) as Hw.
  destruct (exact_attained diceRolls Hwf) as [Hlo Hhi].
  destruct (stats_extrema _ _ _ Hw) as (a & b & Hmin & Hmax & Hall).
  pose proof (exact_integers diceRolls) as Hint.
  destruct (Page.getExactDistribution diceRolls) as [|x xs] eqn:Hd;
    [contradiction |].
  pose proof (Math_min_attained xs x Hint) as Ha.
  pose proof (Math_max_attained xs x Hint) as Hb.
  simpl Page.min in *. simpl Page.max in *.
  rewrite Hmin in Ha |- *. rewrite Hmax in Hb |- *.
  destruct (Hw _ Ha) as (va & Heqa & Hva). injection Heqa as <-.
  destruct (Hw _ Hb) as (vb & Heqb & Hvb). injection Heqb as <-.
  pose proof (Hall _ Hlo). pose proof (Hall _ Hhi).
  split; f_equal; lia.
Qed.

Lemma exact_extremes_witness :
  Page.stats_spread 1000
    (Page.getExactDistribution
       [Page.mkDiceRoll (Num 2) (Num 6); Page.mkDiceRoll (Num 1) (Num 4)])
  = Ok (Page.stats
          (Page.getExactDistribution
             [Page.mkDiceRoll (Num 2) (Num 6); Page.mkDiceRoll (Num 1) (Num 4)]))
  /\ Page.min (Page.stats (Page.getExactDistribution
                          [Page.mkDiceRoll (Num 2) (Num 6); Page.mkDiceRoll (Num 1) (Num 4)]))
     = Num (lowest_total [Page.mkDiceRoll (Num 2) (Num 6); Page.mkDiceRoll (Num 1) (Num 4)])
  /\ Page.max (Page.stats (Page.getExactDistribution
                             [Page.mkDiceRoll (Num 2) (Num 6); Page.mkDiceRoll (Num 1) (Num 4)]))
     = Num (highest_total [Page.mkDiceRoll (Num 2) (Num 6); Page.mkDiceRoll (Num 1) (Num 4)]).
Proof.
  apply (exact_extremes 1000
           [Page.mkDiceRoll (Num 2) (Num 6); Page.mkDiceRoll (Num 1) (Num 4)]).
  - reflexivity.
  - vm_compute. discriminate.
  - reflexivity.
Defined.

Lemma total_app (l1 l2 : list number) : total (l1 ++ l2) = total l1 + total l2.
Proof. induction l1 as [|x l1 IH]; simpl; [reflexivity | rewrite IH; lia]. Qed.

Lemma total_map_add (a : Z) (aug : list number) :
  integers aug ->
  total (map (fun y => add (Num a) y) aug)
  = Z.of_nat (List.length aug) * a + total aug.
Proof.
  induction aug as [|y aug IH]; intros Ha; [reflexivity |].
  destruct (Ha y (or_introl eq_refl)) as (v & ->).
  change (total (map (fun y => add (Num a) y) (Num v :: aug)))
    with (a + v + total (map (fun y => add (Num a) y) aug)).
  rewrite IH by (intros z Hz; apply Ha; right; exact Hz).
  change (List.length (Num v :: aug)) with (Datatypes.S (List.length aug)).
  change (total (Num v :: aug)) with (v + total aug).
  rewrite Nat2Z.inj_succ. lia.
Qed.

Lemma total_combine (results aug : list number) :
  integers results -> integers aug ->
  total (Page.combine results aug)
  = Z.of_nat (List.length aug) * total results
    + Z.of_nat (List.length results) * total aug.
Proof.
  intros Hr Ha. unfold Page.combine.
  induction results as [|x results IH]; [simpl; lia |].
  destruct (Hr x (or_introl eq_refl)) as (v & ->).
  change (flat_map (fun x => map (fun y => add x y) aug) (Num v :: results))
    with (map (fun y => add (Num v) y) aug
          ++ flat_map (fun x => map (fun y => add x y) aug) results).
  rewrite total_app, total_map_add by exact Ha.
  rewrite IH by (intros z Hz; apply Hr; right; exact Hz).
  change (List.length (Num v :: results)) with (Datatypes.S (List.length results)).
  change (total (Num v :: results)) with (v + total results).
  rewrite Nat2Z.inj_succ. lia.
Qed.

Lemma total_push_faces (k : nat) :
  forall (i : Z) (aug : list number),
    2 * total (for_upto k i (fun j aug => aug ++ [Num (j + 1)]) aug)
    = 2 * total aug + Z.of_nat k * (2 * i + Z.of_nat k + 1).
Proof.
  induction k as [|k IH]; intros i aug.
  - simpl. lia.
  - change (for_upto (Datatypes.S k) i (fun j aug => aug ++ [Num (j + 1)]) aug)
      with (for_upto k (i + 1) (fun j aug => aug ++ [Num (j + 1)])
              (aug ++ [Num (i + 1)])).
    rewrite IH, total_app. simpl total. rewrite Nat2Z.inj_succ. lia.
Qed.

Lemma total_faces (s : Z) :
  0 <= s -> 2 * total (Page.faces (Num s)) = s * (s + 1).
Proof.
  intros Hs. unfold Page.faces, for_lt. rewrite total_push_faces.
  simpl. rewrite Z2Nat.id by exact Hs. lia.
Qed.

Lemma exact_dice_balanced (lo hi s : Z) (results : list number) (k : nat) :
  0 <= s ->
  integers results ->
  2 * total results = Z.of_nat (List.length results) * (lo + hi) ->
  let results' :=
    for_upto k 0 (fun _ results => Page.combine results (Page.faces (Num s)))
      results in
  integers results'
  /\ 2 * total results'
     = Z.of_nat (List.length results')
       * ((lo + Z.of_nat k) + (hi + Z.of_nat k * s)).
Proof.
  intros Hs Hint Hbal. induction k as [|k [IHint IHbal]]; cbv zeta.
  - change (for_upto 0 0
              (fun _ results => Page.combine results (Page.faces (Num s))) results)
      with results.
    split; [exact Hint |]. rewrite Hbal. change (Z.of_nat 0) with 0. ring.
  - rewrite for_upto_succ.
    set (r := for_upto k 0
                (fun _ results => Page.combine results (Page.faces (Num s)))
                results) in *.
    split; [apply combine_integers; [exact IHint | apply faces_integers] |].
    rewrite total_combine by (exact IHint || apply faces_integers).
    rewrite combine_length, faces_length. simpl trip_count.
    rewrite Nat2Z.inj_mul, Z2Nat.id by exact Hs.
    pose proof (total_faces s Hs) as Hfaces.
    rewrite Nat2Z.inj_succ.
    set (L := Z.of_nat (List.length r)) in *.
    set (T := total r) in *.
    set (F := total (Page.faces (Num s))) in *.
    set (K := Z.of_nat k) in *.
    replace (2 * (s * T + L * F)) with (s * (2 * T) + L * (2 * F)) by ring.
    rewrite IHbal, Hfaces. ring.
Qed.

Lemma exact_balanced_from (diceRolls : list Page.DiceRoll) :
  well_formed diceRolls = true ->
  forall (lo hi : Z) (results : list number),
    integers results ->
    2 * total results = Z.of_nat (List.length results) * (lo + hi) ->
    let results' :=
      fold_left (fun results roll => Page.exact_roll roll results)
        diceRolls results in
    2 * total results'
    = Z.of_nat (List.length results')
      * ((lo + lowest_total diceRolls) + (hi + highest_total diceRolls)).
Proof.
  induction diceRolls as [|roll diceRolls IH]; intros Hwf lo hi results Hint Hbal;
    cbv zeta.
  - change (lowest_total []) with 0. change (highest_total []) with 0.
    change (fold_left (fun results roll => Page.exact_roll roll results) [] results)
      with results.
    rewrite Hbal. ring.
  - simpl in Hwf. apply andb_true_iff in Hwf as [Hroll Hrest].
    destruct (well_formed_roll_fields roll Hroll) as (t & s & Ht & Hs & Ht1 & Hs1).
    destruct (exact_dice_balanced lo hi s results (Z.to_nat t)
                ltac:(lia) Hint Hbal) as [Hint' Hbal'].
    rewrite Z2Nat.id in Hbal' by lia.
    simpl. rewrite Ht, Hs. simpl value.
    replace (lo + (t + lowest_total diceRolls) + (hi + (t * s + highest_total diceRolls)))
      with ((lo + t) + lowest_total diceRolls + ((hi + t * s) + highest_total diceRolls))
      by ring.
    apply (IH Hrest); unfold Page.exact_roll, for_lt; rewrite Ht, Hs; assumption.
Qed.

Lemma totals_ordered (diceRolls : list Page.DiceRoll) :
  well_formed diceRolls = true ->
  0 <= lowest_total diceRolls <= highest_total diceRolls.
Proof.
  induction diceRolls as [|roll diceRolls IH]; intros Hwf; [simpl; lia |].
  simpl in Hwf. apply andb_true_iff in Hwf as [Hroll Hrest].
  destruct (well_formed_roll_fields roll Hroll) as (t & s & Ht & Hs & Ht1 & Hs1).
  specialize (IH Hrest).
  cbn [lowest_total highest_total fold_right].
  fold (lowest_total diceRolls). fold (highest_total diceRolls).
  rewrite Ht, Hs. cbn [value]. nia.
Qed.

(** X8. When every leaf has [trial >= 1] and [sides >= 1], the engine
    accepts the outcomes as the arguments of one call and the number of
    outcomes times the highest total stays below [2^52] (so that adding the
    outcomes loses nothing and the quotient is a double), the mean the page
    shows for the exact distribution is half the sum of the lowest and the
    highest total, that is the sum over the leaves of
    [trial * (sides + 1) / 2]. *)
Theorem exact_mean (max_arguments : nat) (diceRolls : list Page.DiceRoll) :
  well_formed diceRolls = true ->
  outcome_count diceRolls <= Z.of_nat max_arguments ->
  outcome_count diceRolls * highest_total diceRolls < 2 ^ 52 ->
  Page.stats_spread max_arguments (Page.getExactDistribution diceRolls)
  = Ok (Page.stats (Page.getExactDistribution diceRolls))
  /\ Page.mean (Page.stats (Page.getExactDistribution diceRolls))
     = Real (Qred (inject_Z (lowest_total diceRolls + highest_total diceRolls) / 2)).
Proof.
  intros Hwf Hcount Hsafe.
  pose proof (exact_length_well_formed diceRolls Hwf) as Hlength.
  pose proof (totals_ordered diceRolls Hwf) as Horder.
  split; [apply stats_spread_Ok; lia |].
  pose proof (exact_integers diceRolls) as Hint.
  destruct (exact_attained diceRolls Hwf) as [Hlo _].
  assert (Hbal : 2 * total (Page.getExactDistribution diceRolls)
                 = Z.of_nat (List.length (Page.getExactDistribution diceRolls))
                   * (lowest_total diceRolls + highest_total diceRolls)).
  { unfold Page.getExactDistribution.
    rewrite (exact_balanced_from diceRolls Hwf 0 0 [Num 0]).
    - f_equal.
    - intros x [<- | []]. eauto.
    - reflexivity. }
  destruct (Page.getExactDistribution diceRolls) as [|x xs] eqn:Hd;
    [contradiction |].
  change (Page.mean (Page.stats (x :: xs)))
    with (div_length (Page.sum (x :: xs)) (List.length (x :: xs))).
  rewrite sum_total by exact Hint. unfold div_length.
  set (T := total (x :: xs)) in *.
  set (L := Z.of_nat (List.length (x :: xs))) in *.
  set (M := lowest_total diceRolls + highest_total diceRolls) in *.
  assert (HL : 0 < L) by (subst L; simpl List.length; lia).
  assert (HM : 0 <= M < 2 ^ 53) by (subst M; fold L in Hlength; nia).
  clearbody T L M.
  assert (Hq : (inject_Z T / inject_Z L == inject_Z M / 2)%Q).
  { destruct L as [|p|p]; try lia.
    unfold Qeq, Qdiv, Qmult, Qinv, inject_Z. simpl. lia. }
  f_equal. apply Qred_complete.
  rewrite (to_double_ext _ _ Hq). apply half_integer_kept. exact HM.
Qed.

Lemma exact_mean_witness :
  Page.stats_spread 1000
    (Page.getExactDistribution
       [Page.mkDiceRoll (Num 2) (Num 6); Page.mkDiceRoll (Num 1) (Num 4)])
  = Ok (Page.stats
          (Page.getExactDistribution
             [Page.mkDiceRoll (Num 2) (Num 6); Page.mkDiceRoll (Num 1) (Num 4)]))
  /\ Page.mean (Page.stats (Page.getExactDistribution
                           [Page.mkDiceRoll (Num 2) (Num 6); Page.mkDiceRoll (Num 1) (Num 4)]))
     = Real (Qred (inject_Z
                  (lowest_total [Page.mkDiceRoll (Num 2) (Num 6); Page.mkDiceRoll (Num 1) (Num 4)]
                   + highest_total [Page.mkDiceRoll (Num 2) (Num 6); Page.mkDiceRoll (Num 1) (Num 4)])
                / 2)).
Proof.
  apply (exact_mean 1000
           [Page.mkDiceRoll (Num 2) (Num 6); Page.mkDiceRoll (Num 1) (Num 4)]).
  - reflexivity.
  - vm_compute. discriminate.
  - reflexivity.
Defined.

(** ** How the Monte Carlo engine reads the random source *)

Lemma throw_dice_state (random : nat -> Q) (roll : Page.DiceRoll) (t : nat) :
  forall st : Page.sim,
    snd (for_upto t 0 (fun _ st => Page.throw_die random roll st) st)
    = (snd st + t)%nat.
Proof.
  induction t as [|t IH]; intros st.
  - simpl. lia.
  - rewrite for_upto_succ.
    specialize (IH st).
    destruct (for_upto t 0 (fun _ st => Page.throw_die random roll st) st)
      as [current k].
    simpl in IH |- *. lia.
Qed.

Lemma simulate_state_from (random : nat -> Q) (diceRolls : list Page.DiceRoll) :
  forall st : Page.sim,
    snd (fold_left (fun st roll => Page.simulate_roll random roll st) diceRolls st)
    = (snd st + dice_thrown diceRolls)%nat.
Proof.
  induction diceRolls as [|roll diceRolls IH]; intros st; simpl.
  - lia.
  - rewrite IH. unfold Page.simulate_roll, for_lt.
    rewrite throw_dice_state. lia.
Qed.

Lemma simulate_state (random : nat -> Q) (diceRolls : list Page.DiceRoll) (k : nat) :
  snd (Page.simulate random diceRolls k) = (k + dice_thrown diceRolls)%nat.
Proof. unfold Page.simulate. rewrite simulate_state_from. reflexivity. Qed.

Lemma simulations_unfold (random : nat -> Q) (diceRolls : list Page.DiceRoll)
    (n : nat) :
  forall (i : Z) (results : list number) (k : nat),
    for_upto n i
      (fun _ '(results, k) =>
         let (current, k') := Page.simulate random diceRolls k in
         (results ++ [current], k'))
      (results, k)
    = (results
       ++ map (fun j => fst (Page.simulate random diceRolls
                               (k + j * dice_thrown diceRolls)))
            (seq 0 n),
       (k + n * dice_thrown diceRolls)%nat).
Proof.
  induction n as [|n IH]; intros i results k.
  - simpl. rewrite app_nil_r. f_equal. lia.
  - cbn [for_upto].
    pose proof (simulate_state random diceRolls k) as Hk.
    destruct (Page.simulate random diceRolls k) as [current k'] eqn:Hsim.
    simpl in Hk. subst k'.
    rewrite IH. f_equal.
    + rewrite <- app_assoc. f_equal.
      cbn [seq map]. rewrite Nat.mul_0_l, Nat.add_0_r, Hsim. cbn [fst app].
      f_equal. rewrite <- seq_shift, map_map.
      apply map_ext. intros j. do 2 f_equal. lia.
    + lia.
Qed.

(** X11. Every simulation reads one fresh random number per die thrown: the
    [i]-th value of the result is the simulation that starts at position
    [k + i * dice], and the engine leaves the source at position
    [k + numSimulations * dice]. *)
Theorem monte_carlo_draws (random : nat -> Q) (diceRolls : list Page.DiceRoll)
    (numSimulations : number) (k : nat) :
  Page.getMonteCarloDistribution_from random diceRolls numSimulations k
  = (map (fun i => fst (Page.simulate random diceRolls
                          (k + i * dice_thrown diceRolls)))
       (seq 0 (trip_count numSimulations)),
     (k + trip_count numSimulations * dice_thrown diceRolls)%nat).
Proof.
  unfold Page.getMonteCarloDistribution_from, for_lt.
  rewrite simulations_unfold. reflexivity.
Qed.

(** ** Constants *)

Lemma face_one (random : nat -> Q) (k : nat) :
  uniform_source random -> Page.face random (Num 1) k = Num 1.
Proof.
  intros Hu.
  pose proof (face_In random Hu 1 k ltac:(lia)) as Hin.
  apply faces_In in Hin as (v & Hv & ->). f_equal. lia.
Qed.

Lemma constant_roll_simulated (random : nat -> Q) (roll : Page.DiceRoll)
    (a : Z) (k : nat) (t : nat) :
  uniform_source random ->
  Page.sides roll = Num 1 ->
  fst (for_upto t 0 (fun _ st => Page.throw_die random roll st) (Num a, k))
  = Num (a + Z.of_nat t).
Proof.
  intros Hu Hs. induction t as [|t IH].
  - simpl. f_equal. lia.
  - rewrite for_upto_succ.
    destruct (for_upto t 0 (fun _ st => Page.throw_die random roll st) (Num a, k))
      as [current k'].
    simpl in IH. subst current. unfold Page.throw_die, fst.
    rewrite Hs, face_one by exact Hu. unfold add. f_equal.
    rewrite Nat2Z.inj_succ. lia.
Qed.

Lemma constants_simulated_from (random : nat -> Q) (diceRolls : list Page.DiceRoll) :
  uniform_source random ->
  (forall roll, In roll diceRolls -> Page.sides roll = Num 1) ->
  forall (a : Z) (k : nat),
    fst (fold_left (fun st roll => Page.simulate_roll random roll st)
           diceRolls (Num a, k))
    = Num (a + Z.of_nat (dice_thrown diceRolls)).
Proof.
  intros Hu. induction diceRolls as [|roll diceRolls IH]; intros Hs a k.
  - simpl. f_equal. lia.
  - cbn [fold_left].
    pose proof (constant_roll_simulated random roll a k
                  (trip_count (Page.trial roll)) Hu
                  (Hs roll (or_introl eq_refl))) as Hroll.
    unfold Page.simulate_roll at 2. unfold for_lt.
    destruct (for_upto (trip_count (Page.trial roll)) 0
                (fun _ st => Page.throw_die random roll st) (Num a, k))
      as [current k'].
    simpl in Hroll. subst current.
    rewrite IH by (intros r Hr; apply Hs; right; exact Hr).
    f_equal. cbn [dice_thrown fold_right]. fold (dice_thrown diceRolls).
    rewrite Nat2Z.inj_add. lia.
Qed.

Lemma constant_roll_exact (roll : Page.DiceRoll) (a : Z) (t : nat) :
  Page.sides roll = Num 1 ->
  for_upto t 0
    (fun _ results => Page.combine results (Page.faces (Page.sides roll)))
    [Num a]
  = [Num (a + Z.of_nat t)].
Proof.
  intros Hs. induction t as [|t IH].
  - simpl. do 2 f_equal. lia.
  - rewrite for_upto_succ, IH, Hs.
    change (Page.combine [Num (a + Z.of_nat t)] (Page.faces (Num 1)))
      with [Num (a + Z.of_nat t + 1)].
    do 2 f_equal. rewrite Nat2Z.inj_succ. lia.
Qed.

Lemma constants_exact_from (diceRolls : list Page.DiceRoll) :
  (forall roll, In roll diceRolls -> Page.sides roll = Num 1) ->
  forall a : Z,
    fold_left (fun results roll => Page.exact_roll roll results) diceRolls [Num a]
    = [Num (a + Z.of_nat (dice_thrown diceRolls))].
Proof.
  induction diceRolls as [|roll diceRolls IH]; intros Hs a.
  - simpl. do 2 f_equal. lia.
  - cbn [fold_left]. unfold Page.exact_roll at 2. unfold for_lt.
    rewrite constant_roll_exact by (apply Hs; left; reflexivity).
    rewrite IH by (intros r Hr; apply Hs; right; exact Hr).
    do 2 f_equal. cbn [dice_thrown fold_right]. fold (dice_thrown diceRolls).
    rewrite Nat2Z.inj_add. lia.
Qed.

(** X12. When every term is a constant (one side), both engines return that
    constant only: the exact engine a single entry, the Monte Carlo engine
    one copy per simulation, for every random source over [0, 1). *)
Theorem constants_only (random : nat -> Q) (diceRolls : list Page.DiceRoll)
    (numSimulations : number) :
  uniform_source random ->
  (forall roll, In roll diceRolls -> Page.sides roll = Num 1) ->
  Page.getExactDistribution diceRolls
  = [Num (Z.of_nat (dice_thrown diceRolls))]
  /\ Page.getMonteCarloDistribution random diceRolls numSimulations
     = repeat (Num (Z.of_nat (dice_thrown diceRolls))) (trip_count numSimulations).
Proof.
  intros Hu Hs. split.
  - unfold Page.getExactDistribution. rewrite constants_exact_from by exact Hs.
    reflexivity.
  - unfold Page.getMonteCarloDistribution, Page.getMonteCarloDistribution_from,
      for_lt.
    rewrite simulations_unfold. cbn [fst app].
    transitivity (map (fun _ : nat => Num (Z.of_nat (dice_thrown diceRolls)))
                    (seq 0 (trip_count numSimulations))).
    + apply map_ext. intros j.
      unfold Page.simulate. rewrite constants_simulated_from by assumption.
      reflexivity.
    + rewrite map_const, length_seq. reflexivity.
Qed.

Lemma constants_only_witness :
  Page.getExactDistribution [Page.mkDiceRoll (Num 5) (Num 1)]
  = [Num (Z.of_nat (dice_thrown [Page.mkDiceRoll (Num 5) (Num 1)]))]
  /\ Page.getMonteCarloDistribution (fun _ => 1 # 2)
       [Page.mkDiceRoll (Num 5) (Num 1)] (Num 3)
     = repeat (Num (Z.of_nat (dice_thrown [Page.mkDiceRoll (Num 5) (Num 1)])))
         (trip_count (Num 3)).
Proof.
  apply (constants_only (fun _ => 1 # 2) [Page.mkDiceRoll (Num 5) (Num 1)] (Num 3)).
  - intros k. split; [discriminate | reflexivity].
  - intros roll [<- | []]. reflexivity.
Defined.

(** ** What the parser accepts *)

Lemma span_spec (p : ascii -> bool) (s : string) :
  forall a b : string,
    span p s = (a, b) ->
    s = (a ++ b)%string
    /\ forallb_string p a = true
    /\ match b with
       | EmptyString => True
       | String c _ => p c = false
       end.
Proof.
  induction s as [|c s IH]; intros a b Hspan; simpl in Hspan.
  - injection Hspan as <- <-. auto.
  - destruct (p c) eqn:Hc.
    + destruct (span p s) as [a' b'] eqn:Hs. injection Hspan as <- <-.
      destruct (IH a' b' eq_refl) as (-> & Ha & Hb).
      repeat split; [simpl; rewrite Hc, Ha; reflexivity | exact Hb].
    + injection Hspan as <- <-. repeat split. exact Hc.
Qed.

Lemma match_roll_Some (component g1 g2 : string) :
  Page.match_roll component = Some (g1, g2) <->
  digits g1 /\ digits g2 /\ component = (g1 ++ String "d" g2)%string.
Proof.
  split.
  - unfold Page.match_roll. destruct (span is_digit component) as [a b] eqn:Hspan.
    destruct (span_spec _ _ _ _ Hspan) as (-> & Ha & _).
    destruct a as [|a0 a]; [discriminate |].
    destruct b as [|c b]; [discriminate |].
    destruct (Ascii.eqb_spec c "d") as [-> | Hc].
    + destruct b as [|b0 b]; [discriminate |].
      destruct (forallb_string is_digit (String b0 b)) eqn:Hb; [| discriminate].
      intros H. injection H as <- <-.
      repeat split; try discriminate; assumption.
    + intros H. exfalso.
      destruct c as [[] [] [] [] [] [] [] []]; try discriminate H.
      apply Hc. reflexivity.
  - intros ([Hne1 Hg1] & [Hne2 Hg2] & ->). unfold Page.match_roll.
    rewrite (span_class_app is_digit g1 "d" g2 Hg1 eq_refl).
    destruct g1 as [|a g1]; [contradiction |].
    destruct g2 as [|b g2]; [contradiction |].
    rewrite Hg2. reflexivity.
Qed.

Lemma parseNode_accepts (component : string) :
  (exists node, Page.parseNode component = Ok node) <->
  includes "d" component = false \/ roll_form component.
Proof.
  unfold Page.parseNode. split.
  - intros (node & H). destruct (includes "d" component); [| left; reflexivity].
    right. destruct (Page.match_roll component) as [[g1 g2]|] eqn:Hm;
      [| discriminate].
    apply match_roll_Some in Hm as (H1 & H2 & ->). exists g1, g2. auto.
  - intros [Hd | (x & y & Hx & Hy & ->)].
    + rewrite Hd. eauto.
    + fold (Page.parseNode (x ++ String "d" y)).
      rewrite parseNode_roll by assumption. eauto.
Qed.

Lemma parseNode_message (component msg : string) :
  Page.parseNode component = Throw msg -> msg = Page.invalid_base.
Proof.
  unfold Page.parseNode. destruct (includes "d" component); [| discriminate].
  destruct (Page.match_roll component) as [[g1 g2]|]; [discriminate |].
  intros H. injection H as <-. reflexivity.
Qed.

(** The fields of a parsed node: [sides] is a natural number, and [trial] is
    one too unless the node is a constant. *)
Lemma parseNode_fields (component : string) (node : Page.DiceRoll) :
  Page.parseNode component = Ok node ->
  exists s, Page.sides node = Num s /\ 0 <= s
            /\ (s = 1 \/ exists t, Page.trial node = Num t /\ 0 <= t).
Proof.
  unfold Page.parseNode. destruct (includes "d" component).
  - destruct (Page.match_roll component) as [[g1 g2]|] eqn:Hm; [| discriminate].
    apply match_roll_Some in Hm as (H1 & H2 & _).
    destruct (parseInt_digits g1 H1) as (t & Ht & Ht0).
    destruct (parseInt_digits g2 H2) as (s & Hs & Hs0).
    intros H. injection H as <-. simpl. rewrite Ht, Hs.
    exists s. repeat split; [exact Hs0 | right; eauto].
  - intros H. injection H as <-. simpl. exists 1. repeat split; [lia | left; reflexivity].
Qed.

Lemma push_nodes_Ok (components : list string) :
  forall diceRolls rolls : list Page.DiceRoll,
    Page.push_nodes components diceRolls = Ok rolls ->
    exists nodes,
      rolls = diceRolls ++ nodes
      /\ Forall2 (fun component node => Page.parseNode component = Ok node)
           components nodes.
Proof.
  induction components as [|c components IH]; intros diceRolls rolls H; simpl in H.
  - injection H as <-. exists []. rewrite app_nil_r. auto.
  - destruct (Page.parseNode c) as [node|msg] eqn:Hc; [| discriminate].
    simpl in H. destruct (IH _ _ H) as (nodes & -> & Hall).
    exists (node :: nodes). rewrite <- app_assoc. auto.
Qed.

Lemma push_nodes_accepts (components : list string) :
  forall diceRolls : list Page.DiceRoll,
    (exists rolls, Page.push_nodes components diceRolls = Ok rolls) <->
    Forall (fun component => exists node, Page.parseNode component = Ok node)
      components.
Proof.
  induction components as [|c components IH]; intros diceRolls; simpl.
  - split; [constructor | eauto].
  - split.
    + intros (rolls & H).
      destruct (Page.parseNode c) as [node|msg] eqn:Hc; [| discriminate].
      constructor; [eauto |]. apply (IH (diceRolls ++ [node])). eauto.
    + intros H. inversion H as [|c' l' (node & Hnode) Hrest]; subst.
      rewrite Hnode. simpl. apply IH. exact Hrest.
Qed.

Lemma push_nodes_message (components : list string) :
  forall (diceRolls : list Page.DiceRoll) (msg : string),
    Page.push_nodes components diceRolls = Throw msg ->
    exists component,
      In component components /\ Page.parseNode component = Throw msg.
Proof.
  induction components as [|c components IH]; intros diceRolls msg H; simpl in H.
  - discriminate.
  - destruct (Page.parseNode c) as [node|msg'] eqn:Hc; simpl in H.
    + destruct (IH _ _ H) as (c' & Hin & Hc'). exists c'. split; [right |]; assumption.
    + injection H as <-. exists c. split; [left; reflexivity | exact Hc].
Qed.

Lemma Forall2_In_r {A B : Type} (P : A -> B -> Prop) (l : list A) (l' : list B) :
  Forall2 P l l' ->
  forall y, In y l' -> exists x, In x l /\ P x y.
Proof.
  induction 1 as [|x y l l' Hxy _ IH]; intros z Hz; [contradiction |].
  destruct Hz as [<- | Hz].
  - exists x. split; [left; reflexivity | exact Hxy].
  - destruct (IH z Hz) as (x' & Hin & Hp). exists x'. split; [right |]; assumption.
Qed.

Lemma split_length (c : ascii) (s : string) :
  List.length (split c s) = Datatypes.S (count_char c s).
Proof.
  induction s as [|x s IH]; simpl; [reflexivity |].
  destruct (Ascii.eqb x c); simpl.
  - rewrite IH. reflexivity.
  - destruct (split c s) as [|w ws]; simpl in *; [discriminate | exact IH].
Qed.

(** X1. The parser accepts an expression exactly when each of its components
    between [+] signs either has no [d] at all or is [XdY] with two
    non-empty strings of decimal digits. *)
Theorem parse_accepts_iff (expression : string) :
  (exists diceRolls, Page.parseDiceExpression expression = Ok diceRolls) <->
  Forall (fun component => includes "d" component = false \/ roll_form component)
    (split "+" expression).
Proof.
  unfold Page.parseDiceExpression. rewrite push_nodes_accepts.
  split; intros H; (eapply Forall_impl; [| exact H]); intros c Hc;
    apply parseNode_accepts; exact Hc.
Qed.

(** X2. When the parser throws, the message is the one of [parseNode], and some
    component has a [d] without being of the form [XdY]. *)
Theorem parse_rejects (expression msg : string) :
  Page.parseDiceExpression expression = Throw msg ->
  msg = Page.invalid_base
  /\ exists component,
       In component (split "+" expression)
       /\ includes "d" component = true
       /\ ~ roll_form component.
Proof.
  unfold Page.parseDiceExpression. intros H.
  apply push_nodes_message in H as (c & Hin & Hc).
  split; [apply (parseNode_message c); exact Hc |].
  exists c. split; [exact Hin |].
  assert (Hno : ~ exists node, Page.parseNode c = Ok node).
  { intros (node & Hnode). congruence. }
  rewrite parseNode_accepts in Hno.
  split.
  - destruct (includes "d" c); [reflexivity | exfalso; apply Hno; left; reflexivity].
  - intros Hform. apply Hno. right; exact Hform.
Qed.

Lemma parse_rejects_witness :
  Page.invalid_base = Page.invalid_base
  /\ exists component,
       In component (split "+" "2d6+1d")
       /\ includes "d" component = true
       /\ ~ roll_form component.
Proof.
  apply (parse_rejects "2d6+1d" Page.invalid_base). reflexivity.
Defined.


(** ** The chart *)

Lemma list_sum_map_add {A : Type} (f g : A -> nat) (l : list A) :
  list_sum (map (fun i => (f i + g i)%nat) l)
  = (list_sum (map f l) + list_sum (map g l))%nat.
Proof. induction l as [|x l IH]; simpl; [reflexivity | rewrite IH; lia]. Qed.

Lemma list_sum_zero {A : Type} (l : list A) :
  list_sum (map (fun _ => O) l) = O.
Proof. induction l as [|x l IH]; simpl; [reflexivity | exact IH]. Qed.

(** Exactly one bar stands for a value between the first and the last. *)
Lemma one_bar_per_value (v a : Z) (n : nat) :
  list_sum (map (fun i => if v =? Z.of_nat i + a then 1%nat else O) (seq 0 n))
  = if (a <=? v) && (v <? a + Z.of_nat n) then 1%nat else O.
Proof.
  induction n as [|n IH].
  - simpl. destruct (Z.leb_spec a v), (Z.ltb_spec v (a + 0)); simpl; try reflexivity.
    lia.
  - rewrite seq_S, map_app, list_sum_app, IH. cbn [map list_sum Nat.add].
    rewrite Nat2Z.inj_succ.
    destruct (Z.eqb_spec v (Z.of_nat n + a)), (Z.leb_spec a v),
      (Z.ltb_spec v (a + Z.of_nat n)), (Z.ltb_spec v (a + Z.succ (Z.of_nat n)));
      simpl; try reflexivity; lia.
Qed.

Lemma bars_count_all (a : Z) (n : nat) (l : list number) :
  integers l ->
  (forall v, In (Num v) l -> a <= v < a + Z.of_nat n) ->
  list_sum
    (map (fun i =>
            List.length (filter (fun x => strict_eq x (Num (Z.of_nat i + a))) l))
       (seq 0 n))
  = List.length l.
Proof.
  induction l as [|x l IH]; intros Hint Hrange.
  - simpl. apply list_sum_zero.
  - destruct (Hint x (or_introl eq_refl)) as (v & ->).
    rewrite (map_ext _
               (fun i : nat =>
                  Nat.add
                    (if v =? Z.of_nat i + a then 1%nat else O)
                    (List.length
                       (filter (fun x => strict_eq x (Num (Z.of_nat i + a))) l)))).
    + rewrite list_sum_map_add, one_bar_per_value, IH.
      * pose proof (Hrange v (or_introl eq_refl)) as Hv.
        destruct (Z.leb_spec a v), (Z.ltb_spec v (a + Z.of_nat n));
          simpl; try reflexivity; lia.
      * intros y Hy. apply Hint. right; exact Hy.
      * intros w Hw. apply Hrange. right; exact Hw.
    + intros i. cbn [filter strict_eq].
      destruct (v =? Z.of_nat i + a); reflexivity.
Qed.

(** X14. For a sequence of integers below [2^53] in size that the engine
    accepts as the arguments of one call and whose values span less than
    [2^32], the chart is built without error: its labels run from the
    minimum to the maximum in steps of 1, every outcome is counted by
    exactly one bar, so that the counts add up to the number of outcomes,
    and each datum is a count divided by [numSimulations] (Monte Carlo) or
    by the number of outcomes (exact). *)
Theorem chart_covers_distribution (max_arguments : nat) (useMonteCarlo : bool)
    (numSimulations : number) (distribution : list number) :
  within (- 2 ^ 53) (2 ^ 53) distribution ->
  (List.length distribution <= max_arguments)%nat ->
  (forall v w, In (Num v) distribution -> In (Num w) distribution ->
               w - v + 1 < 2 ^ 32) ->
  exists (a b : Z) (chart : Page.ChartData),
    Page.min (Page.stats distribution) = Num a
    /\ Page.max (Page.stats distribution) = Num b
    /\ Page.chartData max_arguments useMonteCarlo numSimulations distribution
       = Ok chart
    /\ Page.labels chart
       = map (fun i => Num (Z.of_nat i + a)) (seq 0 (Z.to_nat (b - a + 1)))
    /\ list_sum (bar_counts distribution) = List.length distribution
    /\ Page.data chart
       = map (fun count =>
                divide (Z.of_nat count)
                  (if useMonteCarlo then numSimulations
                   else Num (Z.of_nat (List.length distribution))))
           (bar_counts distribution).
Proof.
  intros Hw Hlen Hspan.
  assert (Hint : integers distribution).
  { intros x Hx. destruct (Hw x Hx) as (v & -> & _). eauto. }
  destruct (stats_extrema _ _ distribution Hw) as (a & b & Hmin & Hmax & Hall).
  assert (Hbars : Page.bars distribution = Num (b - a + 1)).
  { unfold Page.bars. rewrite Hmin, Hmax. reflexivity. }
  assert (H32 : (2 ^ 32 <=? b - a + 1) = false).
  { apply Z.leb_gt. destruct distribution as [|x xs].
    - simpl in Hmin, Hmax. injection Hmin as <-. injection Hmax as <-.
      reflexivity.
    - destruct (extrema_attained (x :: xs) Hint ltac:(discriminate))
        as [Hin_min Hin_max].
      rewrite Hmin in Hin_min. rewrite Hmax in Hin_max.
      apply Hspan; assumption. }
  set (denominator := if useMonteCarlo then numSimulations
                      else Num (Z.of_nat (List.length distribution))).
  exists a, b,
    {| Page.labels :=
         map (fun i => add (Num (Z.of_nat i)) (Page.min (Page.stats distribution)))
           (seq 0 (Z.to_nat (b - a + 1)));
       Page.data :=
         map (fun i =>
                divide (Z.of_nat (Page.bar_count distribution (Z.of_nat i)))
                  denominator)
           (seq 0 (Z.to_nat (b - a + 1))) |}.
  split; [exact Hmin |]. split; [exact Hmax |]. split; [| split; [| split]].
  - unfold Page.chartData. rewrite (stats_spread_Ok _ _ Hlen). cbn [bind].
    rewrite Hbars. unfold Array_from. rewrite H32. subst denominator.
    destruct useMonteCarlo; reflexivity.
  - cbn [Page.labels]. rewrite Hmin. reflexivity.
  - unfold bar_counts, Page.bar_count. rewrite Hbars, Hmin.
    cbn [trip_count]. apply bars_count_all; [exact Hint |].
    intros v Hv. pose proof (Hall v Hv). lia.
  - cbn [Page.data]. unfold bar_counts. rewrite Hbars, map_map. reflexivity.
Qed.

Lemma chart_covers_distribution_witness :
  exists (a b : Z) (chart : Page.ChartData),
    Page.min (Page.stats [Num 4; Num 2; Num 4]) = Num a
    /\ Page.max (Page.stats [Num 4; Num 2; Num 4]) = Num b
    /\ Page.chartData 1000 true (Num 3) [Num 4; Num 2; Num 4] = Ok chart
    /\ Page.labels chart
       = map (fun i => Num (Z.of_nat i + a)) (seq 0 (Z.to_nat (b - a + 1)))
    /\ list_sum (bar_counts [Num 4; Num 2; Num 4])
       = List.length [Num 4; Num 2; Num 4]
    /\ Page.data chart
       = map (fun count =>
                divide (Z.of_nat count)
                  (if true then Num 3
                   else Num (Z.of_nat (List.length [Num 4; Num 2; Num 4]))))
           (bar_counts [Num 4; Num 2; Num 4]).
Proof.
  apply (chart_covers_distribution 1000 true (Num 3) [Num 4; Num 2; Num 4]).
  - intros x [<- | [<- | [<- | []]]]; eexists; (split; [reflexivity |]);
      split; discriminate.
  - simpl. lia.
  - intros v w [Hv | [Hv | [Hv | []]]] [Hw | [Hw | [Hw | []]]];
      injection Hv as <-; injection Hw as <-; reflexivity.
Defined.

(** ** The states of the page *)

Lemma throw_dice_integer (random : nat -> Q) (roll : Page.DiceRoll) (s : Z)
    (t : nat) (st : Page.sim) :
  Page.sides roll = Num s ->
  (exists c, fst st = Num c) ->
  exists c, fst (for_upto t 0 (fun _ st => Page.throw_die random roll st) st)
            = Num c.
Proof.
  intros Hs Hst. induction t as [|t (c & IH)]; [exact Hst |].
  rewrite for_upto_succ.
  destruct (for_upto t 0 (fun _ st => Page.throw_die random roll st) st)
    as [current k].
  simpl in IH. subst current. unfold Page.throw_die. rewrite Hs. simpl. eauto.
Qed.

Lemma simulate_integer_from (random : nat -> Q) (diceRolls : list Page.DiceRoll) :
  (forall roll, In roll diceRolls -> exists s, Page.sides roll = Num s) ->
  forall st : Page.sim,
    (exists c, fst st = Num c) ->
    exists c,
      fst (fold_left (fun st roll => Page.simulate_roll random roll st)
             diceRolls st)
      = Num c.
Proof.
  induction diceRolls as [|roll diceRolls IH]; intros Hs st Hst; [exact Hst |].
  cbn [fold_left]. apply IH.
  - intros r Hr. apply Hs. right; exact Hr.
  - destruct (Hs roll (or_introl eq_refl)) as (s & Hroll).
    unfold Page.simulate_roll, for_lt.
    apply throw_dice_integer with (s := s); assumption.
Qed.

(** With integer [sides] fields the Monte Carlo engine returns integers. *)
Lemma monte_carlo_integers (random : nat -> Q) (diceRolls : list Page.DiceRoll)
    (numSimulations : number) (k : nat) :
  (forall roll, In roll diceRolls -> exists s, Page.sides roll = Num s) ->
  integers
    (fst (Page.getMonteCarloDistribution_from random diceRolls numSimulations k)).
Proof.
  intros Hs x Hx.
  unfold Page.getMonteCarloDistribution_from, for_lt in Hx.
  apply (simulations_In random diceRolls (fun y => exists v, y = Num v)) in Hx.
  - destruct Hx as [[] | Hx]. exact Hx.
  - intros j. unfold Page.simulate.
    apply simulate_integer_from; [exact Hs | simpl; eauto].
Qed.

Lemma parsed_sides (expression : string) (diceRolls : list Page.DiceRoll) :
  Page.parseDiceExpression expression = Ok diceRolls ->
  forall roll, In roll diceRolls -> exists s, Page.sides roll = Num s.
Proof.
  unfold Page.parseDiceExpression. intros H roll Hin.
  apply push_nodes_Ok in H as (nodes & -> & Hall). simpl in Hin.
  destruct (Forall2_In_r _ _ _ Hall roll Hin) as (c & _ & Hc).
  destruct (parseNode_fields c roll Hc) as (s & Hs & _). eauto.
Qed.

Lemma parse_message (expression msg : string) :
  Page.parseDiceExpression expression = Throw msg -> msg = Page.invalid_base.
Proof.
  unfold Page.parseDiceExpression. intros H.
  apply push_nodes_message in H as (c & _ & Hc).
  apply (parseNode_message c). exact Hc.
Qed.

Lemma computeDistribution_integers (random : nat -> Q) (k : nat) (st : Page.Home) :
  integers (Page.distribution st) ->
  integers (Page.distribution (fst (Page.computeDistribution random k st))).
Proof.
  intros Hint. unfold Page.computeDistribution.
  destruct (Page.parseDiceExpression (Page.expression st)) as [diceRolls|msg]
    eqn:Hparse.
  - destruct (Page.useMonteCarlo st).
    + pose proof (monte_carlo_integers random diceRolls (Page.numSimulations st) k
                    (parsed_sides _ _ Hparse)) as Hmc.
      destruct (Page.getMonteCarloDistribution_from random diceRolls
                  (Page.numSimulations st) k) as [results k'].
      exact Hmc.
    + apply exact_integers.
  - exact Hint.
Qed.

(** X15. In every state the page can reach while the numbers typed into
    the expression have at most 15 digits, whatever else was typed into its
    controls, the distribution holds integers only (never [NaN]). *)
Theorem reachable_invariant (random : nat -> Q) (st : Page.Home) :
  Page.reachable random st ->
  integers (Page.distribution st).
Proof.
  induction 1 as [|a st _ _ Hint|k st _ Hint].
  - intros x [].
  - destruct a; exact Hint.
  - unfold Page.effect.
    destruct (Page.useMonteCarlo st || Page.shouldCompute st); [| exact Hint].
    pose proof (computeDistribution_integers random k st Hint) as Hkeep.
    destruct (Page.computeDistribution random k st) as [st' k'].
    exact Hkeep.
Qed.

Lemma reachable_invariant_witness :
  integers
    (Page.distribution
       (fst (Page.effect (fun _ => 1 # 2) 0
               (Page.update (Page.SetExpression "2d6+x") Page.initial)))).
Proof.
  apply (reachable_invariant (fun _ => 1 # 2)).
  apply Page.reach_effect, Page.reach_update; [reflexivity |].
  apply Page.reach_initial.
Defined.



(** ** The order of the terms *)

Lemma add_swap (x a b : number) : add (add x a) b = add (add x b) a.
Proof.
  destruct x as [x|], a as [a|], b as [b|]; simpl; try reflexivity.
  f_equal. lia.
Qed.

Lemma flat_map_of_map {X Y Z : Type} (g : Y -> list Z) (h : X -> Y) (l : list X) :
  flat_map g (map h l) = flat_map (fun x => g (h x)) l.
Proof. induction l as [|x l IH]; simpl; [reflexivity | rewrite IH; reflexivity]. Qed.

Lemma flat_map_cons_Permutation {Y Z : Type} (g : Y -> Z) (h : Y -> list Z)
    (l : list Y) :
  Permutation (flat_map (fun b => g b :: h b) l) (map g l ++ flat_map h l).
Proof.
  induction l as [|b l IH]; [constructor |].
  cbn [flat_map map app]. constructor.
  rewrite IH. apply Permutation_app_swap_app.
Qed.

(** The pairs of two lists, row by row or column by column. *)
Lemma product_swap {X Y Z : Type} (f : X -> Y -> Z) (A : list X) (B : list Y) :
  Permutation (flat_map (fun a => map (f a) B) A)
              (flat_map (fun b => map (fun a => f a b) A) B).
Proof.
  induction A as [|a A IH].
  - cbn [flat_map map]. induction B as [|b B IHB]; [constructor | exact IHB].
  - cbn [flat_map map]. rewrite IH.
    symmetry. apply (flat_map_cons_Permutation (f a)).
Qed.

Lemma combine_Permutation (results results' aug : list number) :
  Permutation results results' ->
  Permutation (Page.combine results aug) (Page.combine results' aug).
Proof. intros H. unfold Page.combine. apply Permutation_flat_map. exact H. Qed.

(** Adding two dice one after the other, in either order, gives the same
    outcomes up to their order. *)
Lemma combine_swap (results A B : list number) :
  Permutation (Page.combine (Page.combine results A) B)
              (Page.combine (Page.combine results B) A).
Proof.
  unfold Page.combine.
  induction results as [|x results IH]; [constructor |].
  cbn [flat_map]. rewrite !flat_map_app.
  apply Permutation_app; [| exact IH].
  rewrite !flat_map_of_map.
  rewrite (product_swap (fun a b => add (add x a) b) A B).
  rewrite (flat_map_ext (fun b => map (fun a => add (add x a) b) A)
             (fun b => map (fun y => add (add x b) y) A)).
  - reflexivity.
  - intros b. apply map_ext. intros a. apply add_swap.
Qed.

Lemma dice_Permutation (aug : list number) (t : nat) (results results' : list number) :
  Permutation results results' ->
  Permutation
    (for_upto t 0 (fun _ results => Page.combine results aug) results)
    (for_upto t 0 (fun _ results => Page.combine results aug) results').
Proof.
  intros H. induction t as [|t IH]; [exact H |].
  rewrite !for_upto_succ. apply combine_Permutation. exact IH.
Qed.

Lemma die_dice_swap (A B : list number) (t : nat) (results : list number) :
  Permutation
    (Page.combine (for_upto t 0 (fun _ results => Page.combine results B) results) A)
    (for_upto t 0 (fun _ results => Page.combine results B)
       (Page.combine results A)).
Proof.
  induction t as [|t IH]; [reflexivity |].
  rewrite !for_upto_succ. rewrite combine_swap.
  apply combine_Permutation. exact IH.
Qed.

Lemma dice_swap (A B : list number) (t t' : nat) (results : list number) :
  Permutation
    (for_upto t 0 (fun _ results => Page.combine results A)
       (for_upto t' 0 (fun _ results => Page.combine results B) results))
    (for_upto t' 0 (fun _ results => Page.combine results B)
       (for_upto t 0 (fun _ results => Page.combine results A) results)).
Proof.
  induction t as [|t IH]; [reflexivity |].
  rewrite !for_upto_succ.
  rewrite <- die_dice_swap. apply combine_Permutation. exact IH.
Qed.

Lemma exact_roll_Permutation (roll : Page.DiceRoll) (results results' : list number) :
  Permutation results results' ->
  Permutation (Page.exact_roll roll results) (Page.exact_roll roll results').
Proof. apply dice_Permutation. Qed.

Lemma exact_roll_swap (r1 r2 : Page.DiceRoll) (results : list number) :
  Permutation (Page.exact_roll r1 (Page.exact_roll r2 results))
              (Page.exact_roll r2 (Page.exact_roll r1 results)).
Proof. apply dice_swap. Qed.

Lemma exact_Permutation_from (l1 l2 : list Page.DiceRoll) :
  Permutation l1 l2 ->
  forall results results' : list number,
    Permutation results results' ->
    Permutation
      (fold_left (fun results roll => Page.exact_roll roll results) l1 results)
      (fold_left (fun results roll => Page.exact_roll roll results) l2 results').
Proof.
  induction 1 as [|x l l' _ IH|x y l|l l' l'' _ IH1 _ IH2];
    intros results results' Hres.
  - exact Hres.
  - cbn [fold_left]. apply IH, exact_roll_Permutation, Hres.
  - cbn [fold_left].
    assert (Hfold : forall (rs : list Page.DiceRoll) (a b : list number),
               Permutation a b ->
               Permutation
                 (fold_left (fun results roll => Page.exact_roll roll results) rs a)
                 (fold_left (fun results roll => Page.exact_roll roll results) rs b)).
    { induction rs as [|r rs IHrs]; intros a b Hab; [exact Hab |].
      cbn [fold_left]. apply IHrs, exact_roll_Permutation, Hab. }
    apply Hfold. rewrite exact_roll_swap.
    apply exact_roll_Permutation, exact_roll_Permutation, Hres.
  - transitivity
      (fold_left (fun results roll => Page.exact_roll roll results) l' results).
    + apply IH1. reflexivity.
    + apply IH2. exact Hres.
Qed.

(** X9. The order of the terms does not matter to the exact engine: if two lists
    of rolls hold the same rolls in different orders, the two exact
    distributions hold the same outcomes in different orders, so that every
    value occurs equally often in both. *)
Theorem exact_order_irrelevant (l1 l2 : list Page.DiceRoll) :
  Permutation l1 l2 ->
  Permutation (Page.getExactDistribution l1) (Page.getExactDistribution l2)
  /\ forall v : Z,
       occurrences v (Page.getExactDistribution l1)
       = occurrences v (Page.getExactDistribution l2).
Proof.
  intros H.
  assert (Hp : Permutation (Page.getExactDistribution l1)
                 (Page.getExactDistribution l2)).
  { unfold Page.getExactDistribution.
    apply exact_Permutation_from; [exact H | reflexivity]. }
  split; [exact Hp |].
  intros v. unfold occurrences.
  apply (Permutation_count_occ number_eq_dec). exact Hp.
Qed.

Lemma exact_order_irrelevant_witness :
  Permutation
    (Page.getExactDistribution
       [Page.mkDiceRoll (Num 1) (Num 6); Page.mkDiceRoll (Num 2) (Num 4)])
    (Page.getExactDistribution
       [Page.mkDiceRoll (Num 2) (Num 4); Page.mkDiceRoll (Num 1) (Num 6)])
  /\ forall v : Z,
       occurrences v
         (Page.getExactDistribution
            [Page.mkDiceRoll (Num 1) (Num 6); Page.mkDiceRoll (Num 2) (Num 4)])
       = occurrences v
           (Page.getExactDistribution
              [Page.mkDiceRoll (Num 2) (Num 4); Page.mkDiceRoll (Num 1) (Num 6)]).
Proof.
  apply (exact_order_irrelevant
           [Page.mkDiceRoll (Num 1) (Num 6); Page.mkDiceRoll (Num 2) (Num 4)]
           [Page.mkDiceRoll (Num 2) (Num 4); Page.mkDiceRoll (Num 1) (Num 6)]).
  apply perm_swap.
Defined.

(** ** The symmetry of the exact distribution *)

Lemma sub_injective (c : Z) (x y : number) :
  sub (Num c) x = sub (Num c) y -> x = y.
Proof.
  destruct x as [x|], y as [y|]; simpl; intros H; try discriminate;
    [| reflexivity].
  injection H as H. f_equal. lia.
Qed.

Lemma NoDup_map_injective {A B : Type} (f : A -> B) (l : list A) :
  (forall x y, f x = f y -> x = y) -> NoDup l -> NoDup (map f l).
Proof.
  intros Hf. induction 1 as [|x l Hx _ IH]; simpl; constructor; [| exact IH].
  intros Hin. apply in_map_iff in Hin as (y & Hy & Hin).
  apply Hf in Hy. subst y. contradiction.
Qed.

Lemma push_faces_NoDup (k : nat) :
  forall (i : Z) (aug : list number),
    NoDup aug ->
    (forall v, In (Num v) aug -> v <= i) ->
    NoDup (for_upto k i (fun j aug => aug ++ [Num (j + 1)]) aug).
Proof.
  induction k as [|k IH]; intros i aug Hnd Hle; [exact Hnd |].
  cbn [for_upto]. apply IH.
  - apply NoDup_app; [exact Hnd | constructor; [intros [] | constructor] |].
    intros a Ha [<- | []]. apply Hle in Ha. lia.
  - intros v Hv. apply in_app_iff in Hv as [Hv | [Hv | []]].
    + apply Hle in Hv. lia.
    + injection Hv as <-. lia.
Qed.

Lemma faces_NoDup (sides : number) : NoDup (Page.faces sides).
Proof.
  unfold Page.faces, for_lt. apply push_faces_NoDup; [constructor | intros v []].
Qed.

(** Read from the top, the faces of a die are its faces. *)
Lemma faces_reflected (s : Z) :
  Permutation (map (sub (Num (s + 1))) (Page.faces (Num s))) (Page.faces (Num s)).
Proof.
  apply NoDup_Permutation.
  - apply NoDup_map_injective; [apply sub_injective | apply faces_NoDup].
  - apply faces_NoDup.
  - intros x. rewrite in_map_iff. split.
    + intros (y & <- & Hy). apply faces_In in Hy as (v & Hv & ->).
      apply faces_In. exists (s + 1 - v). split; [lia | reflexivity].
    + intros Hx. apply faces_In in Hx as (v & Hv & ->).
      exists (Num (s + 1 - v)). split.
      * simpl. f_equal. lia.
      * apply faces_In. exists (s + 1 - v). split; [lia | reflexivity].
Qed.

Lemma sub_add (c d : Z) (x y : number) :
  sub (Num (c + d)) (add x y) = add (sub (Num c) x) (sub (Num d) y).
Proof.
  destruct x as [x|], y as [y|]; simpl; try reflexivity. f_equal. lia.
Qed.

Lemma map_sub_combine (c d : Z) (results aug : list number) :
  map (sub (Num (c + d))) (Page.combine results aug)
  = Page.combine (map (sub (Num c)) results) (map (sub (Num d)) aug).
Proof.
  unfold Page.combine.
  induction results as [|x results IH]; [reflexivity |].
  cbn [flat_map map]. rewrite map_app, IH. f_equal.
  rewrite !map_map. apply map_ext. intros y. apply sub_add.
Qed.

Lemma combine_Permutation_r (results aug aug' : list number) :
  Permutation aug aug' ->
  Permutation (Page.combine results aug) (Page.combine results aug').
Proof.
  intros H. unfold Page.combine.
  induction results as [|x results IH]; [constructor |].
  cbn [flat_map]. apply Permutation_app; [| exact IH].
  apply Permutation_map. exact H.
Qed.

Lemma combine_reflected (c s : Z) (results : list number) :
  Permutation (map (sub (Num c)) results) results ->
  Permutation
    (map (sub (Num (c + (s + 1)))) (Page.combine results (Page.faces (Num s))))
    (Page.combine results (Page.faces (Num s))).
Proof.
  intros H. rewrite map_sub_combine.
  rewrite (combine_Permutation _ _ _ H).
  apply combine_Permutation_r, faces_reflected.
Qed.

Lemma dice_reflected (c s : Z) (results : list number) (k : nat) :
  Permutation (map (sub (Num c)) results) results ->
  let results' :=
    for_upto k 0 (fun _ results => Page.combine results (Page.faces (Num s)))
      results in
  Permutation (map (sub (Num (c + Z.of_nat k * (s + 1)))) results') results'.
Proof.
  intros H. induction k as [|k IH]; cbv zeta in *.
  - change (Z.of_nat 0) with 0. rewrite Z.mul_0_l, Z.add_0_r. exact H.
  - rewrite for_upto_succ.
    replace (c + Z.of_nat (Datatypes.S k) * (s + 1))
      with (c + Z.of_nat k * (s + 1) + (s + 1))
      by (rewrite Nat2Z.inj_succ; ring).
    apply combine_reflected. exact IH.
Qed.

Lemma exact_reflected_from (diceRolls : list Page.DiceRoll) :
  well_formed diceRolls = true ->
  forall (c : Z) (results : list number),
    Permutation (map (sub (Num c)) results) results ->
    let results' :=
      fold_left (fun results roll => Page.exact_roll roll results)
        diceRolls results in
    Permutation
      (map (sub (Num (c + lowest_total diceRolls + highest_total diceRolls)))
         results')
      results'.
Proof.
  induction diceRolls as [|roll diceRolls IH]; intros Hwf c results H; cbv zeta.
  - change (lowest_total []) with 0. change (highest_total []) with 0.
    rewrite !Z.add_0_r. exact H.
  - simpl in Hwf. apply andb_true_iff in Hwf as [Hroll Hrest].
    destruct (well_formed_roll_fields roll Hroll) as (t & s & Ht & Hs & Ht1 & Hs1).
    pose proof (dice_reflected c s results (Z.to_nat t) H) as Hdice.
    cbv zeta in Hdice. rewrite Z2Nat.id in Hdice by lia.
    cbn [fold_left lowest_total highest_total fold_right].
    fold (lowest_total diceRolls). fold (highest_total diceRolls).
    rewrite Ht, Hs. cbn [value].
    replace (c + (t + lowest_total diceRolls) + (t * s + highest_total diceRolls))
      with (c + t * (s + 1) + lowest_total diceRolls + highest_total diceRolls)
      by ring.
    apply (IH Hrest). unfold Page.exact_roll, for_lt. rewrite Ht, Hs. exact Hdice.
Qed.

(** X10. When every leaf has [trial >= 1] and [sides >= 1], the exact distribution
    is symmetric: a value [v] occurs as often as its mirror image
    [lowest + highest - v]. *)
Theorem exact_symmetric (diceRolls : list Page.DiceRoll) (v : Z) :
  well_formed diceRolls = true ->
  occurrences v (Page.getExactDistribution diceRolls)
  = occurrences (lowest_total diceRolls + highest_total diceRolls - v)
      (Page.getExactDistribution diceRolls).
Proof.
  intros Hwf.
  pose proof (exact_reflected_from diceRolls Hwf 0 [Num 0] (Permutation_refl _))
    as Hperm.
  cbv zeta in Hperm. fold (Page.getExactDistribution diceRolls) in Hperm.
  rewrite Z.add_0_l in Hperm.
  set (c := lowest_total diceRolls + highest_total diceRolls) in *.
  unfold occurrences.
  rewrite (count_occ_map (sub (Num c)) number_eq_dec number_eq_dec
             (sub_injective c) (Num v)).
  apply (Permutation_count_occ number_eq_dec). exact Hperm.
Qed.

Lemma exact_symmetric_witness :
  occurrences 5 (Page.getExactDistribution
                   [Page.mkDiceRoll (Num 2) (Num 6); Page.mkDiceRoll (Num 1) (Num 4)])
  = occurrences
      (lowest_total [Page.mkDiceRoll (Num 2) (Num 6); Page.mkDiceRoll (Num 1) (Num 4)]
       + highest_total [Page.mkDiceRoll (Num 2) (Num 6); Page.mkDiceRoll (Num 1) (Num 4)]
       - 5)
      (Page.getExactDistribution
         [Page.mkDiceRoll (Num 2) (Num 6); Page.mkDiceRoll (Num 1) (Num 4)]).
Proof.
  apply (exact_symmetric
           [Page.mkDiceRoll (Num 2) (Num 6); Page.mkDiceRoll (Num 1) (Num 4)] 5).
  reflexivity.
Defined.

(** ** The values of the parsed fields *)

Lemma digit_value_code (c : ascii) :
  is_digit c = true -> digit_value 10 c = Some (Z.of_N (code c) - 48).
Proof.
  unfold is_digit, digit_value. intros H.
  apply andb_true_iff in H as [Hlo Hhi].
  apply N.leb_le in Hlo, Hhi.
  destruct (Z.leb_spec 48 (Z.of_N (code c))); [| lia].
  destruct (Z.leb_spec (Z.of_N (code c)) 57); [| lia].
  simpl. destruct (Z.ltb_spec (Z.of_N (code c) - 48) 10); [reflexivity | lia].
Qed.

Lemma read_digits_value (x : string) :
  forallb_string is_digit x = true ->
  forall a, read_digits 10 x (Some a) = Some (decimal_from a x).
Proof.
  induction x as [|c x IH]; intros Hx a; [reflexivity |].
  simpl in Hx. apply andb_true_iff in Hx as [Hc Hx].
  cbn [read_digits decimal_from]. rewrite (digit_value_code c Hc).
  apply (IH Hx).
Qed.

Lemma parseInt_decimal (x : string) :
  digits x -> parseInt x = Num (decimal x).
Proof.
  intros [Hne Hx]. destruct x as [|c x]; [contradiction |].
  simpl in Hx. apply andb_true_iff in Hx as [Hc Hx].
  assert (Hcode : (48 <= code c <= 57)%N).
  { unfold is_digit in Hc. apply andb_true_iff in Hc as [H1 H2].
    apply N.leb_le in H1, H2. lia. }
  assert (Hspace : is_space c = false).
  { unfold is_space.
    destruct (N.leb_spec (code c) 13); [lia |].
    destruct (N.eqb_spec (code c) 32); [lia |].
    destruct (N.eqb_spec (code c) 160); [lia |].
    rewrite andb_false_r. reflexivity. }
  assert (Hother : forall k : ascii,
             is_digit k = false -> Ascii.eqb c k = false).
  { intros k Hk. destruct (Ascii.eqb_spec c k) as [-> | _]; congruence. }
  unfold parseInt. simpl trim_start. rewrite Hspace.
  unfold strip_sign. rewrite (Hother "-"%char eq_refl), (Hother "+"%char eq_refl).
  assert (Hradix : strip_radix (String c x) = (10, String c x)).
  { unfold strip_radix. destruct x as [|c1 x]; [reflexivity |].
    simpl in Hx. apply andb_true_iff in Hx as [Hc1 _].
    assert (H1 : Ascii.eqb c1 "x" = false).
    { destruct (Ascii.eqb_spec c1 "x") as [-> | _]; [discriminate | reflexivity]. }
    assert (H2 : Ascii.eqb c1 "X" = false).
    { destruct (Ascii.eqb_spec c1 "X") as [-> | _]; [discriminate | reflexivity]. }
    rewrite H1, H2, andb_false_r. reflexivity. }
  rewrite Hradix. cbn [read_digits]. rewrite (digit_value_code c Hc).
  rewrite (read_digits_value x Hx). unfold decimal. cbn [decimal_from].
  change (0 * 10 + (Z.of_N (code c) - 48)) with (Z.of_N (code c) - 48).
  rewrite Z.mul_1_l. reflexivity.
Qed.

(** ** Numbers of at most 15 digits *)

Lemma decimal_from_bounds (x : string) :
  forallb_string is_digit x = true ->
  forall a : Z,
    0 <= a ->
    a * 10 ^ Z.of_nat (String.length x) <= decimal_from a x
    /\ decimal_from a x < (a + 1) * 10 ^ Z.of_nat (String.length x).
Proof.
  induction x as [|c x IH]; intros Hx a Ha.
  - simpl. lia.
  - simpl in Hx. apply andb_true_iff in Hx as [Hc Hx].
    assert (Hcode : 0 <= Z.of_N (code c) - 48 <= 9).
    { unfold is_digit in Hc. apply andb_true_iff in Hc as [H1 H2].
      apply N.leb_le in H1, H2. lia. }
    cbn [decimal_from String.length]. rewrite Nat2Z.inj_succ, Z.pow_succ_r by lia.
    destruct (IH Hx (a * 10 + (Z.of_N (code c) - 48)) ltac:(lia)) as [Hlo Hhi].
    assert (Hpow : 0 < 10 ^ Z.of_nat (String.length x))
      by (apply Z.pow_pos_nonneg; lia).
    split; nia.
Qed.

(** A number written with at most 15 digits is below [10^15], hence below
    [2^53]: [parseInt] returns it exactly. *)
Lemma decimal_short (x : string) :
  digits x -> (String.length x <= 15)%nat -> 0 <= decimal x < 10 ^ 15.
Proof.
  intros [_ Hx] Hlen.
  destruct (decimal_from_bounds x Hx 0 ltac:(lia)) as [Hlo Hhi].
  fold (decimal x) in Hlo, Hhi.
  assert (Hpow : 10 ^ Z.of_nat (String.length x) <= 10 ^ 15)
    by (apply Z.pow_le_mono_r; lia).
  lia.
Qed.

Lemma append_empty_r (s : string) : (s ++ "")%string = s.
Proof. induction s as [|c s IH]; simpl; [reflexivity | rewrite IH; reflexivity]. Qed.

Lemma digit_run_prefix (limit : nat) (z : string) :
  forallb_string is_digit z = true ->
  z <> "" ->
  forall (run : nat) (rest : string),
    digit_runs_within limit run (z ++ rest) = true ->
    (run + String.length z <= limit)%nat
    /\ digit_runs_within limit (run + String.length z) rest = true.
Proof.
  induction z as [|c z IH]; intros Hz Hne run rest H; [contradiction |].
  simpl in Hz. apply andb_true_iff in Hz as [Hc Hz].
  cbn [append digit_runs_within] in H. rewrite Hc in H.
  apply andb_true_iff in H as [Hrun H]. apply Nat.leb_le in Hrun.
  destruct z as [|c' z'].
  - cbn [append String.length] in *. rewrite Nat.add_1_r. auto.
  - destruct (IH Hz ltac:(discriminate) (Datatypes.S run) rest H) as [Hlen Hrest].
    cbn [String.length] in *. rewrite Nat.add_succ_r. auto.
Qed.

Lemma digit_runs_split (limit : nat) (e : string) :
  forall run : nat,
    digit_runs_within limit run e = true ->
    match split "+" e with
    | [] => False
    | c :: cs =>
        digit_runs_within limit run c = true
        /\ Forall (fun c => digit_runs_within limit 0 c = true) cs
    end.
Proof.
  induction e as [|x e IH]; intros run H.
  - simpl. auto.
  - cbn [split]. cbn [digit_runs_within] in H.
    destruct (Ascii.eqb_spec x "+") as [-> | Hx].
    + change (is_digit "+") with false in H. cbv iota in H.
      specialize (IH O H). destruct (split "+" e) as [|c cs]; [contradiction |].
      destruct IH as [Hc Hcs]. split; [reflexivity | constructor; assumption].
    + destruct (is_digit x) eqn:Hd.
      * apply andb_true_iff in H as [Hrun H].
        specialize (IH (Datatypes.S run) H).
        destruct (split "+" e) as [|c cs]; [contradiction |].
        destruct IH as [Hc Hcs]. split; [| exact Hcs].
        cbn [digit_runs_within]. rewrite Hd, Hrun, Hc. reflexivity.
      * specialize (IH O H).
        destruct (split "+" e) as [|c cs]; [contradiction |].
        destruct IH as [Hc Hcs]. split; [| exact Hcs].
        cbn [digit_runs_within]. rewrite Hd. exact Hc.
Qed.

Lemma roll_form_short (x y : string) :
  digits x -> digits y ->
  digit_runs_within 15 0 (x ++ String "d" y) = true ->
  (String.length x <= 15)%nat /\ (String.length y <= 15)%nat.
Proof.
  intros [Hx0 Hx] [Hy0 Hy] H.
  destruct (digit_run_prefix 15 x Hx Hx0 O (String "d" y) H) as [Hlen Hrest].
  split; [exact Hlen |].
  cbn [digit_runs_within] in Hrest. change (is_digit "d") with false in Hrest.
  cbv iota in Hrest. rewrite <- (append_empty_r y) in Hrest.
  destruct (digit_run_prefix 15 y Hy Hy0 O "" Hrest) as [Hlen' _].
  exact Hlen'.
Qed.

Lemma parseNode_fields_short (component : string) (node : Page.DiceRoll) :
  digit_runs_within 15 0 component = true ->
  Page.parseNode component = Ok node ->
  exists s, Page.sides node = Num s /\ 0 <= s < 10 ^ 15
            /\ (s = 1 \/ exists t, Page.trial node = Num t /\ 0 <= t < 10 ^ 15).
Proof.
  intros Hshort. unfold Page.parseNode. destruct (includes "d" component).
  - destruct (Page.match_roll component) as [[g1 g2]|] eqn:Hm; [| discriminate].
    apply match_roll_Some in Hm as (H1 & H2 & ->).
    destruct (roll_form_short g1 g2 H1 H2 Hshort) as [Hl1 Hl2].
    intros H. injection H as <-. cbn [Page.sides Page.trial].
    rewrite !parseInt_decimal by assumption.
    exists (decimal g2). split; [reflexivity |].
    split; [apply decimal_short; assumption |].
    right. exists (decimal g1). split; [reflexivity |].
    apply decimal_short; assumption.
  - intros H. injection H as <-. cbn [Page.sides]. exists 1.
    split; [reflexivity |]. split; [lia | left; reflexivity].
Qed.

(** X3. When no number of the expression has more than 15 digits, a parsed
    list has one roll per component, that is one more than the expression
    has [+] signs; every roll has a natural number of sides below [10^15],
    and its count is such a number too unless the roll is a constant. *)
Theorem parsed_rolls_shape (expression : string) (diceRolls : list Page.DiceRoll) :
  digit_runs_within 15 0 expression = true ->
  Page.parseDiceExpression expression = Ok diceRolls ->
  List.length diceRolls = Datatypes.S (count_char "+" expression)
  /\ forall roll, In roll diceRolls ->
       exists s, Page.sides roll = Num s /\ 0 <= s < 10 ^ 15
                 /\ (s = 1
                     \/ exists t, Page.trial roll = Num t /\ 0 <= t < 10 ^ 15).
Proof.
  intros Hshort. unfold Page.parseDiceExpression. intros H.
  apply push_nodes_Ok in H as (nodes & -> & Hall). simpl. split.
  - rewrite <- (Forall2_length Hall). apply split_length.
  - intros roll Hin.
    destruct (Forall2_In_r _ _ _ Hall roll Hin) as (c & Hc_in & Hc).
    apply (parseNode_fields_short c); [| exact Hc].
    pose proof (digit_runs_split 15 expression O Hshort) as Hsplit.
    destruct (split "+" expression) as [|c0 cs]; [contradiction |].
    destruct Hsplit as [H0 Hrest].
    destruct Hc_in as [<- | Hc_in]; [exact H0 |].
    rewrite Forall_forall in Hrest. apply Hrest. exact Hc_in.
Qed.

Lemma parsed_rolls_shape_witness :
  List.length [Page.mkDiceRoll (Num 2) (Num 6); Page.mkDiceRoll NaN (Num 1)]
  = Datatypes.S (count_char "+" "2d6+x")
  /\ forall roll,
       In roll [Page.mkDiceRoll (Num 2) (Num 6); Page.mkDiceRoll NaN (Num 1)] ->
       exists s, Page.sides roll = Num s /\ 0 <= s < 10 ^ 15
                 /\ (s = 1
                     \/ exists t, Page.trial roll = Num t /\ 0 <= t < 10 ^ 15).
Proof.
  apply (parsed_rolls_shape "2d6+x"); reflexivity.
Defined.

(** X4. For strings [X] and [Y] of 1 to 15 decimal digits, the term [XdY]
    parses to the roll of [X] dice with [Y] sides, and the constant [X] to
    the roll of [X] dice with one side: the digits are read in base 10,
    leading zeros included, and the values are below [10^15]. *)
Theorem parse_term_values (x y : string) :
  digits x -> digits y ->
  (String.length x <= 15)%nat -> (String.length y <= 15)%nat ->
  Page.parseDiceExpression (x ++ String "d" y)
  = Ok [Page.mkDiceRoll (Num (decimal x)) (Num (decimal y))]
  /\ Page.parseDiceExpression x
     = Ok [Page.mkDiceRoll (Num (decimal x)) (Num 1)]
  /\ 0 <= decimal x < 10 ^ 15
  /\ 0 <= decimal y < 10 ^ 15.
Proof.
  intros Hx Hy Hlx Hly. unfold Page.parseDiceExpression.
  split; [| split; [| split; apply decimal_short; assumption]].
  - rewrite split_without.
    + cbn [Page.push_nodes]. rewrite parseNode_roll by assumption.
      rewrite !parseInt_decimal by assumption. reflexivity.
    + rewrite includes_app. cbn [includes].
      rewrite (includes_class is_digit "+" x (proj2 Hx) eq_refl).
      rewrite (includes_class is_digit "+" y (proj2 Hy) eq_refl). reflexivity.
  - rewrite split_without.
    + cbn [Page.push_nodes]. rewrite parseNode_constant by assumption.
      rewrite parseInt_decimal by assumption. reflexivity.
    + apply (includes_class is_digit "+" x (proj2 Hx) eq_refl).
Qed.

Lemma parse_term_values_witness :
  Page.parseDiceExpression ("010" ++ String "d" "20")
  = Ok [Page.mkDiceRoll (Num (decimal "010")) (Num (decimal "20"))]
  /\ Page.parseDiceExpression "010"
     = Ok [Page.mkDiceRoll (Num (decimal "010")) (Num 1)]
  /\ 0 <= decimal "010" < 10 ^ 15
  /\ 0 <= decimal "20" < 10 ^ 15.
Proof.
  apply (parse_term_values "010" "20");
    try (split; [discriminate | reflexivity]); simpl; lia.
Defined.

(** ** The node of the second copy *)


